(** * Bertini 2: adaptive-precision criteria and Hermite extrapolation

    A shallow embedding of
    - [bertini2/tracking/amp_criteria.hpp] (Criteria A, B and C of adaptive
      multiple precision), over the real numbers, and
    - [bertini2/tracking/interpolation.hpp] ([HermiteInterpolateAndSolve]),
      over any field of scalars with decidable equality,
    followed by the properties of both that the specification states. *)

From Stdlib Require Import String ZArith List Bool Lia.
From Stdlib Require Import QArith Qcanon Qcabs Field.
From Stdlib Require Import Reals Lra.
Import ListNotations.

Close Scope Qc_scope.
Close Scope Q_scope.
Close Scope R_scope.
Open Scope Z_scope.

(* ================================================================== *)
(** * Part I: definitions *)
(* ================================================================== *)

(** ** Results of a call

    A call either returns a value or stops in one of three ways: one of the
    function's [assert]s fails (the message is the one of the source), an
    index lies outside the container or the matrix it addresses, or a
    quotient by zero was formed, which has no value in the scalars. *)

Inductive error : Type :=
| AssertionFailed (message : string)
| IndexOutOfBounds
| DivisionByZero.

Inductive result (A : Type) : Type :=
| Ok (a : A)
| Err (e : error).

Arguments Ok {A} a.
Arguments Err {A} e.

(** ** Machine integers

    [unsigned int] is 32 bits wide and [size_t] 64 bits wide; both wrap. *)

Definition u32 (x : Z) : Z := x mod 2 ^ 32.
Definition usize (x : Z) : Z := x mod 2 ^ 64.

(** [size] of a standard container, as a [size_t]. *)
Definition size {A : Type} (l : list A) : Z := Z.of_nat (List.length l).

(** The indices visited by [for (i = lo; i < hi; ++i)].  In every loop of
    the source [hi] is itself an [unsigned] value, so the counter never
    wraps before the test fails. *)
Definition upto (lo hi : Z) : list Z :=
  map (fun k => lo + Z.of_nat k) (seq 0%nat (Z.to_nat (hi - lo))).

(** The indices visited by [for (i = hi; i >= lo; --i)] for [lo >= 1]: the
    counter stops before it could wrap below zero. *)
Definition downto (hi lo : Z) : list Z := rev (upto lo (hi + 1)).

(* ------------------------------------------------------------------ *)
(** ** amp_criteria.hpp *)
(* ------------------------------------------------------------------ *)

Module amp.

Local Open Scope R_scope.

(** Modelled from the spec: [config::AdaptiveMultiplePrecisionConfig] is
    declared in [tracking_config.hpp], which is not part of the sources at
    hand; these are the fields the criteria read, with the types the
    specification's data model gives them. *)
Record AdaptiveMultiplePrecisionConfig : Type := {
  safety_digits_1 : Z;
  safety_digits_2 : Z;
  epsilon : R;
  Phi : R;
  Psi : R
}.

(** [log10] of the C++ math library, on the reals. *)
Definition log10 (x : R) : R := ln x / ln 10.

(** The comparison [x > y] of two real values, as the [bool] of C++. *)
Definition Rgtb (x y : R) : bool := if Rlt_dec y x then true else false.

(** The quotient of a real by an [unsigned] count. *)
Definition quotient (x : R) (n : N) : result R :=
  if N.eqb n 0 then Err DivisionByZero else Ok (x / IZR (Z.of_N n)).

(** The Euclidean norm [z.norm()] of a complex vector, each coefficient
    given by its real and its imaginary part. *)
Definition norm (z : list (R * R)) : R :=
  sqrt (fold_right (fun c acc => fst c * fst c + snd c * snd c + acc) 0 z).

Section Criteria.

(** [NumTraits<RealType>::NumDigits()]: the digit count of the working
    precision.  [NumTraits] is declared outside the sources at hand. *)
Variable NumDigits : Z.

Definition CriterionA (norm_J norm_J_inverse : R)
    (AMP_config : AdaptiveMultiplePrecisionConfig) : bool :=
  Rgtb (IZR NumDigits)
       (IZR (safety_digits_1 AMP_config)
        + log10 (norm_J_inverse * epsilon AMP_config
                 * (norm_J + Phi AMP_config))).

Definition D (norm_J norm_J_inverse : R)
    (AMP_config : AdaptiveMultiplePrecisionConfig) : R :=
  log10 (norm_J_inverse
         * ((2 + epsilon AMP_config) * norm_J
            + epsilon AMP_config * Phi AMP_config)
         + 1).

Definition CriterionBRHS (norm_J norm_J_inverse : R)
    (num_newton_iterations_remaining : N)
    (tracking_tolerance norm_of_latest_newton_residual : R)
    (AMP_config : AdaptiveMultiplePrecisionConfig) : result R :=
  match quotient (- log10 tracking_tolerance
                  + log10 norm_of_latest_newton_residual)
                 num_newton_iterations_remaining with
  | Ok q =>
      Ok (IZR (safety_digits_1 AMP_config)
          + D norm_J norm_J_inverse AMP_config + q)
  | Err e => Err e
  end.

Definition CriterionB (norm_J norm_J_inverse : R)
    (num_newton_iterations_remaining : N)
    (tracking_tolerance norm_of_latest_newton_residual : R)
    (AMP_config : AdaptiveMultiplePrecisionConfig) : result bool :=
  match CriterionBRHS norm_J norm_J_inverse num_newton_iterations_remaining
          tracking_tolerance norm_of_latest_newton_residual AMP_config with
  | Ok rhs => Ok (Rgtb (IZR NumDigits) rhs)
  | Err e => Err e
  end.

(** The overload of [CriterionCRHS] that takes the norm of the point. *)
Definition CriterionCRHS_norm (norm_J_inverse norm_z tracking_tolerance : R)
    (AMP_config : AdaptiveMultiplePrecisionConfig) : R :=
  IZR (safety_digits_2 AMP_config) + - log10 tracking_tolerance
  + log10 (norm_J_inverse * Psi AMP_config + norm_z).

(** The overload of [CriterionCRHS] that takes the point itself. *)
Definition CriterionCRHS (norm_J_inverse : R) (z : list (R * R))
    (tracking_tolerance : R)
    (AMP_config : AdaptiveMultiplePrecisionConfig) : R :=
  CriterionCRHS_norm norm_J_inverse (norm z) tracking_tolerance AMP_config.

Definition CriterionC (norm_J_inverse : R) (z : list (R * R))
    (tracking_tolerance : R)
    (AMP_config : AdaptiveMultiplePrecisionConfig) : bool :=
  Rgtb (IZR NumDigits)
       (CriterionCRHS norm_J_inverse z tracking_tolerance AMP_config).

End Criteria.

(** *** The criteria as the specification words them *)

Definition spec_CriterionA (current_digits : Z) (norm_J norm_J_inverse : R)
    (cfg : AdaptiveMultiplePrecisionConfig) : Prop :=
  IZR current_digits
  > IZR (safety_digits_1 cfg)
    + log10 (norm_J_inverse * epsilon cfg * (norm_J + Phi cfg)).

Definition spec_D (norm_J norm_J_inverse : R)
    (cfg : AdaptiveMultiplePrecisionConfig) : R :=
  log10 (norm_J_inverse * ((2 + epsilon cfg) * norm_J + epsilon cfg * Phi cfg)
         + 1).

Definition spec_CriterionB (current_digits : Z) (norm_J norm_J_inverse : R)
    (iterations_remaining : N) (tracking_tolerance latest_residual_norm : R)
    (cfg : AdaptiveMultiplePrecisionConfig) : Prop :=
  IZR current_digits
  > IZR (safety_digits_1 cfg) + spec_D norm_J norm_J_inverse cfg
    + (- log10 tracking_tolerance + log10 latest_residual_norm)
      / IZR (Z.of_N iterations_remaining).

Definition spec_CriterionC (current_digits : Z) (norm_J_inverse norm_z : R)
    (tracking_tolerance : R) (cfg : AdaptiveMultiplePrecisionConfig) : Prop :=
  IZR current_digits
  > IZR (safety_digits_2 cfg) - log10 tracking_tolerance
    + log10 (norm_J_inverse * Psi cfg + norm_z).

(** Norms and constants positive, as the monotonicity statement asks. *)
Record positive_config (cfg : AdaptiveMultiplePrecisionConfig) : Prop := {
  epsilon_pos : 0 < epsilon cfg;
  Phi_pos : 0 < Phi cfg;
  Psi_pos : 0 < Psi cfg
}.

(** A configuration with positive constants, to evaluate the criteria at. *)
Definition unit_config : AdaptiveMultiplePrecisionConfig :=
  {| safety_digits_1 := 0; safety_digits_2 := 0;
     epsilon := 1; Phi := / 2; Psi := 1 |}.

End amp.

(* ------------------------------------------------------------------ *)
(** ** amp_criteria.hpp, with the special values of [RealType] *)
(* ------------------------------------------------------------------ *)

(** The floating-point types that instantiate [RealType] add two
    infinities and NaN to the reals, and their operations are total: a
    quotient by zero is an infinity or NaN, [log10] is minus infinity at 0
    and NaN below it, and a comparison with NaN is false.  This module
    embeds Criterion B with these values, for finite arguments and exact
    finite arithmetic; where every logarithm has a positive argument and
    the count is positive it agrees with [amp]. *)
Module amp_extended.

Import amp.
Local Open Scope R_scope.

Inductive xreal : Type :=
| Finite (x : R)
| PosInf
| NegInf
| NaN.

Definition xopp (a : xreal) : xreal :=
  match a with
  | Finite x => Finite (- x)
  | PosInf => NegInf
  | NegInf => PosInf
  | NaN => NaN
  end.

Definition xadd (a b : xreal) : xreal :=
  match a, b with
  | Finite x, Finite y => Finite (x + y)
  | NaN, _ | _, NaN => NaN
  | PosInf, NegInf | NegInf, PosInf => NaN
  | PosInf, _ | _, PosInf => PosInf
  | NegInf, _ | _, NegInf => NegInf
  end.

(** [a / n] for an [unsigned] count [n], which converts to a
    non-negative real: at [n = 0] a finite [a] gives an infinity of its
    sign, or NaN when it is zero. *)
Definition xdiv_count (a : xreal) (n : N) : xreal :=
  match a with
  | Finite x =>
      if N.eqb n 0 then
        if Rlt_dec 0 x then PosInf
        else if Rlt_dec x 0 then NegInf
        else NaN
      else Finite (x / IZR (Z.of_N n))
  | other => other
  end.

(** [log10] of the C++ math library at a finite argument. *)
Definition xlog10 (x : R) : xreal :=
  if Rlt_dec 0 x then Finite (log10 x)
  else if Rlt_dec x 0 then NaN
  else NegInf.

(** [a > b], false as soon as one side is NaN. *)
Definition xgtb (a b : xreal) : bool :=
  match a, b with
  | Finite x, Finite y => Rgtb x y
  | Finite _, NegInf => true
  | PosInf, Finite _ => true
  | PosInf, NegInf => true
  | _, _ => false
  end.

Section Criteria.

Variable NumDigits : Z.

Definition D (norm_J norm_J_inverse : R)
    (AMP_config : AdaptiveMultiplePrecisionConfig) : xreal :=
  xlog10 (norm_J_inverse
          * ((2 + epsilon AMP_config) * norm_J
             + epsilon AMP_config * Phi AMP_config)
          + 1).

Definition CriterionBRHS (norm_J norm_J_inverse : R)
    (num_newton_iterations_remaining : N)
    (tracking_tolerance norm_of_latest_newton_residual : R)
    (AMP_config : AdaptiveMultiplePrecisionConfig) : xreal :=
  xadd (xadd (Finite (IZR (safety_digits_1 AMP_config)))
             (D norm_J norm_J_inverse AMP_config))
       (xdiv_count (xadd (xopp (xlog10 tracking_tolerance))
                         (xlog10 norm_of_latest_newton_residual))
                   num_newton_iterations_remaining).

Definition CriterionB (norm_J norm_J_inverse : R)
    (num_newton_iterations_remaining : N)
    (tracking_tolerance norm_of_latest_newton_residual : R)
    (AMP_config : AdaptiveMultiplePrecisionConfig) : bool :=
  xgtb (Finite (IZR NumDigits))
       (CriterionBRHS norm_J norm_J_inverse num_newton_iterations_remaining
          tracking_tolerance norm_of_latest_newton_residual AMP_config).

End Criteria.

End amp_extended.

(* ------------------------------------------------------------------ *)
(** ** interpolation.hpp *)
(* ------------------------------------------------------------------ *)

(** The template parameter [CT]: a field of scalars whose equality can be
    tested.  The source instantiates it with complex floating-point types;
    the embedding computes in exact arithmetic. *)
Class Scalar (CT : Type) : Type := {
  czero : CT;
  cone : CT;
  cadd : CT -> CT -> CT;
  cmul : CT -> CT -> CT;
  csub : CT -> CT -> CT;
  copp : CT -> CT;
  cdiv : CT -> CT -> CT;
  cinv : CT -> CT;
  scalar_field : field_theory czero cone cadd cmul csub copp cdiv cinv eq;
  scalar_eq_dec : forall x y : CT, {x = y} + {x <> y}
}.

(** The rationals in canonical form are such a field. *)
#[export] Instance Qc_Scalar : Scalar Qc := {|
  czero := Q2Qc 0;
  cone := Q2Qc 1;
  cadd := Qcplus;
  cmul := Qcmult;
  csub := Qcminus;
  copp := Qcopp;
  cdiv := Qcdiv;
  cinv := Qcinv;
  scalar_field := Qcft;
  scalar_eq_dec := Qc_eq_dec
|}.

(** Assignment [l(k) = x] to a coefficient of a vector. *)
Fixpoint update {A : Type} (l : list A) (k : nat) (x : A) : list A :=
  match l, k with
  | [], _ => []
  | _ :: r, O => x :: r
  | y :: r, S k' => y :: update r k' x
  end.

Section Interpolation.

Context {CT : Type} {SC : Scalar CT}.

(** [Vec<CT>]: a column of scalars. *)
Definition Vec : Type := list CT.

Fixpoint coefficientwise (f : CT -> CT -> CT) (u v : Vec) : Vec :=
  match u, v with
  | x :: u', y :: v' => f x y :: coefficientwise f u' v'
  | _, _ => []
  end.

(** [u + v], [u - v], [v * c] and [v / c] of Eigen.  Eigen asks both
    operands of a sum to have the same size; the embedding stops at the
    shorter one. *)
Definition vadd (u v : Vec) : Vec := coefficientwise cadd u v.
Definition vsub (u v : Vec) : Vec := coefficientwise csub u v.
Definition vscale (v : Vec) (c : CT) : Vec := map (fun x => cmul x c) v.
Definition vquot (v : Vec) (c : CT) : Vec := map (fun x => cdiv x c) v.

(** [Mat<Vec<CT>>]: a dense matrix addressed by (row, column). *)
Record Mat : Type := {
  rows : Z;
  cols : Z;
  coeff : Z -> Z -> Vec
}.

(** The local variables of [HermiteInterpolateAndSolve], and whether a
    quotient by zero has been formed so far. *)
Record Frame : Type := {
  space_differences : Mat;
  time_differences : Vec;
  zero_divisor : bool
}.

Definition M (A : Type) : Type := Frame -> result (A * Frame).

Definition ret {A : Type} (a : A) : M A := fun s => Ok (a, s).

Definition bind {A B : Type} (m : M A) (k : A -> M B) : M B :=
  fun s =>
    match m s with
    | Ok (a, s') => k a s'
    | Err e => Err e
    end.

Definition assert (b : bool) (message : string) : M unit :=
  fun s => if b then Ok (tt, s) else Err (AssertionFailed message).

(** [c[i]] on a standard container. *)
Definition at_ {A : Type} (c : list A) (i : Z) : M A :=
  fun s =>
    if (0 <=? i) && (i <? size c) then
      match nth_error c (Z.to_nat i) with
      | Some x => Ok (x, s)
      | None => Err IndexOutOfBounds
      end
    else Err IndexOutOfBounds.

(** The declarations of the two tables, of [r] rows (and columns).  The
    entries of the matrix are empty vectors; those of the time vector are
    unspecified in the source and are all written before they are read. *)
Definition declare (r : Z) : M unit :=
  fun s =>
    Ok (tt, {| space_differences :=
                 {| rows := r; cols := r; coeff := fun _ _ => [] |};
               time_differences := repeat czero (Z.to_nat r);
               zero_divisor := zero_divisor s |}).

Definition in_matrix (F : Mat) (i j : Z) : bool :=
  (0 <=? i) && (i <? rows F) && (0 <=? j) && (j <? cols F).

(** [space_differences(i,j)] read and written. *)
Definition get_sd (i j : Z) : M Vec :=
  fun s =>
    if in_matrix (space_differences s) i j
    then Ok (coeff (space_differences s) i j, s)
    else Err IndexOutOfBounds.

Definition set_sd (i j : Z) (v : Vec) : M unit :=
  fun s =>
    let F := space_differences s in
    if in_matrix F i j then
      Ok (tt, {| space_differences :=
                   {| rows := rows F; cols := cols F;
                      coeff := fun i' j' =>
                        if (i' =? i) && (j' =? j) then v else coeff F i' j' |};
                 time_differences := time_differences s;
                 zero_divisor := zero_divisor s |})
    else Err IndexOutOfBounds.

(** [time_differences(i)] read and written. *)
Definition get_td (i : Z) : M CT :=
  fun s =>
    if (0 <=? i) && (i <? size (time_differences s)) then
      match nth_error (time_differences s) (Z.to_nat i) with
      | Some x => Ok (x, s)
      | None => Err IndexOutOfBounds
      end
    else Err IndexOutOfBounds.

Definition set_td (i : Z) (c : CT) : M unit :=
  fun s =>
    if (0 <=? i) && (i <? size (time_differences s)) then
      Ok (tt, {| space_differences := space_differences s;
                 time_differences :=
                   update (time_differences s) (Z.to_nat i) c;
                 zero_divisor := zero_divisor s |})
    else Err IndexOutOfBounds.

(** [v / c].  The run goes on after a zero divisor, as it does in
    floating point; the frame remembers that one occurred. *)
Definition quot (v : Vec) (c : CT) : M Vec :=
  fun s =>
    Ok (vquot v c,
        {| space_differences := space_differences s;
           time_differences := time_differences s;
           zero_divisor :=
             if scalar_eq_dec c czero then true else zero_divisor s |}).

(** A loop over the indices [idx] that carries the variable [acc]. *)
Fixpoint foldM {A : Type} (idx : list Z) (acc : A) (body : Z -> A -> M A)
    : M A :=
  match idx with
  | [] => ret acc
  | i :: rest => bind (body i acc) (fun acc' => foldM rest acc' body)
  end.

Definition for_each (idx : list Z) (body : Z -> M unit) : M unit :=
  foldM idx tt (fun i _ => body i).

Notation "x <- m ;; k" := (bind m (fun x => k))
  (at level 61, m at next level, right associativity).
Notation "m ;; k" := (bind m (fun _ => k))
  (at level 61, right associativity).

Definition HermiteInterpolateAndSolve_body (target_time : CT)
    (num_sample_points : Z) (times : list CT)
    (samples derivatives : list Vec) : M Vec :=
  assert (num_sample_points <=? size times)
    "must have sufficient number of sample times" ;;
  assert (num_sample_points <=? size samples)
    "must have sufficient number of sample points" ;;
  assert (num_sample_points <=? size derivatives)
    "must have sufficient number of derivatives" ;;
  let num_provided_samples := size samples in
  let num_provided_times := size times in
  let num_provided_derivs := size derivatives in
  declare (u32 (2 * num_sample_points)) ;;
  for_each (upto 0 num_sample_points) (fun ii =>
    s0 <- at_ samples (usize (num_provided_samples - 1 - ii)) ;;
    set_sd (u32 (2 * ii)) 0 s0 ;;
    s1 <- at_ samples (usize (num_provided_samples - 1 - ii)) ;;
    set_sd (u32 (2 * ii + 1)) 0 s1 ;;
    d1 <- at_ derivatives (usize (num_provided_derivs - 1 - ii)) ;;
    set_sd (u32 (2 * ii + 1)) 1 d1 ;;
    t0 <- at_ times (usize (num_provided_times - 1 - ii)) ;;
    set_td (u32 (2 * ii)) t0 ;;
    t1 <- at_ times (usize (num_provided_times - 1 - ii)) ;;
    set_td (u32 (2 * ii + 1)) t1) ;;
  for_each (upto 1 num_sample_points) (fun ii =>
    a <- get_sd (u32 (2 * ii)) 0 ;;
    b <- get_sd (u32 (2 * ii - 1)) 0 ;;
    ta <- get_td (u32 (2 * ii)) ;;
    tb <- get_td (u32 (2 * ii - 1)) ;;
    q <- quot (vsub a b) (csub ta tb) ;;
    set_sd (u32 (2 * ii)) 1 q) ;;
  for_each (upto 2 (u32 (2 * num_sample_points))) (fun ii =>
    for_each (upto 2 (ii + 1)) (fun jj =>
      a <- get_sd ii (u32 (jj - 1)) ;;
      b <- get_sd (u32 (ii - 1)) (u32 (jj - 1)) ;;
      ta <- get_td ii ;;
      tb <- get_td (u32 (ii - jj)) ;;
      q <- quot (vsub a b) (csub ta tb) ;;
      set_sd ii jj q)) ;;
  Result0 <- get_sd (u32 (2 * num_sample_points - 1))
                    (u32 (2 * num_sample_points - 1)) ;;
  Result <- foldM (downto (u32 (num_sample_points - 1)) 1) Result0
    (fun ii Result =>
      t_hi <- get_td ii ;;
      d_hi <- get_sd (u32 (2 * ii)) (u32 (2 * ii)) ;;
      t_lo <- get_td (u32 (ii - 1)) ;;
      d_lo <- get_sd (u32 (2 * ii - 1)) (u32 (2 * ii - 1)) ;;
      ret (vadd (vscale (vadd (vscale Result (csub target_time t_hi)) d_hi)
                        (csub target_time t_lo))
                d_lo)) ;;
  t_first <- get_td 0 ;;
  d_first <- get_sd 0 0 ;;
  ret (vadd (vscale Result (csub target_time t_first)) d_first).

Definition initial_frame : Frame :=
  {| space_differences := {| rows := 0; cols := 0; coeff := fun _ _ => [] |};
     time_differences := [];
     zero_divisor := false |}.

(** [HermiteInterpolateAndSolve], for an [unsigned] [num_sample_points].  A
    run that formed a quotient by zero has no vector of scalars to return. *)
Definition HermiteInterpolateAndSolve (target_time : CT)
    (num_sample_points : Z) (times : list CT)
    (samples derivatives : list Vec) : result Vec :=
  match HermiteInterpolateAndSolve_body target_time num_sample_points times
          samples derivatives initial_frame with
  | Ok (v, s) => if zero_divisor s then Err DivisionByZero else Ok v
  | Err e => Err e
  end.

(** *** Vocabulary of the statements below *)

(** [m] run in a frame that satisfies [P] ends without an error, with a
    value and a frame that satisfy [Q]. *)
Definition triple {A : Type} (P : Frame -> Prop) (m : M A)
    (Q : A -> Frame -> Prop) : Prop :=
  forall s, P s -> exists a s', m s = Ok (a, s') /\ Q a s'.

(** The time recorded [k] samples before the latest one. *)
Definition recent (times : list CT) (k : Z) : option CT :=
  nth_error times (Z.to_nat (size times - 1 - k)).

(** Both tables have [r] rows. *)
Definition shaped (r : Z) (s : Frame) : Prop :=
  rows (space_differences s) = r
  /\ cols (space_differences s) = r
  /\ size (time_differences s) = r.

(** The first [k] entries of [time_differences] hold the doubled nodes. *)
Definition seeded (times : list CT) (k : Z) (s : Frame) : Prop :=
  forall j, 0 <= j < k ->
    nth_error (time_differences s) (Z.to_nat j) = recent times (j / 2).

Definition seeding (r : Z) (times : list CT) (k : Z) (s : Frame) : Prop :=
  shaped r s /\ seeded times k s /\ zero_divisor s = false.

(** The tables are filled in, and a zero divisor occurred exactly if [E]. *)
Definition tracks (r : Z) (times : list CT) (E : Prop) (s : Frame) : Prop :=
  shaped r s /\ seeded times r s /\ (zero_divisor s = true <-> E).

(** Two of the [n] latest times coincide. *)
Definition repeated_time (times : list CT) (n : Z) : Prop :=
  exists a b, 0 <= a < b /\ b < n /\ recent times a = recent times b.

End Interpolation.

Arguments Vec CT : clear implicits.
Arguments Mat CT : clear implicits.
Arguments Frame CT : clear implicits.
Arguments M CT A : clear implicits.

(** *** Concrete paths, in rational arithmetic *)

Definition rational (a : Z) (b : positive) : Qc := Q2Qc (a # b).

(** The samples of a scalar path [f] at the times [ts]: vectors of one
    coefficient. *)
Definition sampled (f : Qc -> Qc) (ts : list Qc) : list (Vec Qc) :=
  map (fun t => [f t]) ts.

(** The rationals that a result holds. *)
Definition values (r : result (Vec Qc)) : result (list Q) :=
  match r with
  | Ok v => Ok (map this v)
  | Err e => Err e
  end.

(** The path [t^3] and its derivative, recorded at time 1 and then at
    time 0. *)
Definition cubic (t : Qc) : Qc := (t * t * t)%Qc.
Definition cubic' (t : Qc) : Qc := (rational 3 1 * t * t)%Qc.
Definition cubic_times : list Qc := [rational 1 1; rational 0 1].

(** The path [t^2 + 1] and its derivative, recorded at the times 0.1, 0.01
    and 0.001. *)
Definition parabola (t : Qc) : Qc := (t * t + rational 1 1)%Qc.
Definition parabola' (t : Qc) : Qc := (rational 2 1 * t)%Qc.
Definition parabola_times : list Qc :=
  [rational 1 10; rational 1 100; rational 1 1000].

(** A history that records the same time twice. *)
Definition stalled_times : list Qc := [rational 1 1; rational 1 1].

(** *** Vocabulary for the contents of the table *)

Section Columns.

Context {CT : Type} {SC : Scalar CT}.

(** The entry of a container [k] places before its latest one. *)
Definition latest {A : Type} (c : list A) (k : Z) : option A :=
  nth_error c (Z.to_nat (size c - 1 - k)).

(** A set of table entries, and one more. *)
Definition add_entry (W : Z -> Z -> Prop) (i j : Z) : Z -> Z -> Prop :=
  fun i' j' => W i' j' \/ (i' = i /\ j' = j).

(** The tables have [r] rows, the first [k] nodes are in place, and every
    entry [(i, j)] of [W] satisfies [Phi i j]. *)
Definition columns (r : Z) (times : list CT)
    (Phi : Z -> Z -> Vec CT -> Prop) (k : Z) (W : Z -> Z -> Prop)
    (s : Frame CT) : Prop :=
  shaped r s
  /\ seeded times k s
  /\ forall i j, W i j -> Phi i j (coeff (space_differences s) i j).

(** The entries written by the first [k] rounds of the seeding loop. *)
Definition seeded_entries (k i j : Z) : Prop :=
  0 <= i < 2 * k /\ (j = 0 \/ (j = 1 /\ i mod 2 = 1)).

(** ... and by the first differences of the rounds before [k]. *)
Definition first_entries (n k i j : Z) : Prop :=
  seeded_entries n i j \/ (j = 1 /\ i mod 2 = 0 /\ 2 <= i < 2 * k).

(** ... and by the remaining columns, up to row [k], column [m]. *)
Definition filled_entries (n k m i j : Z) : Prop :=
  first_entries n n i j
  \/ (2 <= j <= i /\ i < k)
  \/ (i = k /\ 2 <= j < m).

(** A path whose coordinates are the polynomials [a + b t + c t^2], one
    triple of coefficients for each coordinate, and its derivative. *)
Definition position (path : list (CT * CT * CT)) (t : CT) : Vec CT :=
  map (fun '(a, b, c) => cadd (cadd a (cmul b t)) (cmul c (cmul t t))) path.

Definition velocity (path : list (CT * CT * CT)) (t : CT) : Vec CT :=
  map (fun '(a, b, c) => cadd b (cmul (cadd cone cone) (cmul c t))) path.

(** The divided differences of such a path: the entry [(i, j)] of the
    table, and the value carried by the nested evaluation before its
    round [k - 1]. *)
Definition quadratic_entry (times : list CT) (path : list (CT * CT * CT))
    (i j : Z) (v : Vec CT) : Prop :=
  if j =? 0 then
    exists t, recent times (i / 2) = Some t /\ v = position path t
  else if j =? 1 then
    exists t t',
      recent times (i / 2) = Some t
      /\ recent times ((i - 1) / 2) = Some t'
      /\ v = map (fun '(a, b, c) => cadd b (cmul c (cadd t t'))) path
  else if j =? 2 then v = map (fun '(a, b, c) => c) path
  else v = map (fun _ => czero) path.

Definition quadratic_carry (times : list CT) (path : list (CT * CT * CT))
    (target_time : CT) (k : Z) (v : Vec CT) : Prop :=
  if k =? 1 then
    exists t0,
      recent times 0 = Some t0
      /\ v = map (fun '(a, b, c) =>
                    cadd (cmul c (csub target_time t0))
                         (cadd b (cmul c (cadd t0 t0)))) path
  else v = map (fun _ => czero) path.

End Columns.

(** *** More concrete inputs *)


(** The parabola [1 + 0 t + 1 t^2] as a path of one coordinate. *)
Definition parabola_path : list (Qc * Qc * Qc) :=
  [(rational 1 1, rational 0 1, rational 1 1)].

(** A container of [2^31] entries. *)
Definition long_history {A : Type} (x : A) : list A :=
  repeat x (Z.to_nat (2 ^ 31)).

(* ================================================================== *)
(** * Part II: properties *)
(* ================================================================== *)

(** ** The precision criteria *)

Module amp_properties.

Import amp.
Local Open Scope R_scope.

Lemma Rgtb_true (x y : R) : Rgtb x y = true <-> x > y.
Proof.
  unfold Rgtb. destruct (Rlt_dec y x) as [Hlt | Hge]; split; intro H.
  - exact Hlt.
  - reflexivity.
  - discriminate H.
  - contradiction.
Qed.

Lemma Rgtb_false (x y : R) : Rgtb x y = false <-> x <= y.
Proof.
  unfold Rgtb. destruct (Rlt_dec y x) as [Hlt | Hge]; split; intro H.
  - discriminate H.
  - lra.
  - lra.
  - reflexivity.
Qed.

Lemma ln_10_pos : 0 < ln 10.
Proof. rewrite <- ln_1. apply ln_increasing; lra. Qed.

Lemma log10_1 : log10 1 = 0.
Proof. unfold log10. rewrite ln_1. unfold Rdiv. apply Rmult_0_l. Qed.

Lemma log10_le (x y : R) : 0 < x -> x <= y -> log10 x <= log10 y.
Proof.
  intros Hx Hxy. unfold log10, Rdiv.
  apply Rmult_le_compat_r.
  - left. apply Rinv_0_lt_compat, ln_10_pos.
  - destruct Hxy as [Hlt | Heq].
    + left. apply ln_increasing; assumption.
    + subst y. right. reflexivity.
Qed.

Lemma norm_nonneg (z : list (R * R)) : 0 <= norm z.
Proof. unfold norm. apply sqrt_pos. Qed.

Lemma quotient_pos (x : R) (n : N) :
  (0 < n)%N -> quotient x n = Ok (x / IZR (Z.of_N n)).
Proof.
  intro Hn. unfold quotient.
  destruct (N.eqb_spec n 0) as [E | _]; [lia | reflexivity].
Qed.

Lemma IZR_count_pos (n : N) : (0 < n)%N -> 0 < IZR (Z.of_N n).
Proof. intro Hn. apply IZR_lt. lia. Qed.

(** C2: for every [norm_J], [norm_J_inverse] and configuration,
    [CriterionA] returns [true] if and only if the digit count of the
    working precision exceeds
    [safety_digits_1 + log10 (norm_J_inverse * epsilon * (norm_J + Phi))]. *)
Theorem CriterionA_iff (NumDigits : Z) (norm_J norm_J_inverse : R)
    (cfg : AdaptiveMultiplePrecisionConfig) :
  CriterionA NumDigits norm_J norm_J_inverse cfg = true
  <-> spec_CriterionA NumDigits norm_J norm_J_inverse cfg.
Proof. unfold CriterionA, spec_CriterionA. apply Rgtb_true. Qed.

(** C3: when [num_newton_iterations_remaining > 0], [CriterionB] returns a
    boolean, and it is [true] if and only if the digit count exceeds
    [safety_digits_1 + D
     + (- log10 tracking_tolerance + log10 latest_residual_norm)
       / num_newton_iterations_remaining],
    with [D = log10 (norm_J_inverse
                     * ((2 + epsilon) * norm_J + epsilon * Phi) + 1)]. *)
Theorem CriterionB_iff (NumDigits : Z) (norm_J norm_J_inverse : R)
    (num_newton_iterations_remaining : N)
    (tracking_tolerance latest_residual_norm : R)
    (cfg : AdaptiveMultiplePrecisionConfig) :
  (0 < num_newton_iterations_remaining)%N ->
  exists b : bool,
    CriterionB NumDigits norm_J norm_J_inverse
      num_newton_iterations_remaining tracking_tolerance
      latest_residual_norm cfg = Ok b
    /\ (b = true
        <-> spec_CriterionB NumDigits norm_J norm_J_inverse
              num_newton_iterations_remaining tracking_tolerance
              latest_residual_norm cfg).
Proof.
  intro Hn. unfold CriterionB, CriterionBRHS.
  rewrite (quotient_pos _ _ Hn).
  eexists. split; [reflexivity |].
  unfold spec_CriterionB, spec_D, D. apply Rgtb_true.
Qed.

(** C3 at three remaining iterations. *)
Lemma CriterionB_iff_witness :
  exists b : bool,
    CriterionB 16 1 1 3 1 1 unit_config = Ok b
    /\ (b = true <-> spec_CriterionB 16 1 1 3 1 1 unit_config).
Proof. apply CriterionB_iff. reflexivity. Defined.

(** C4: for every [norm_J_inverse], point [z], tolerance and
    configuration, [CriterionC] returns [true] if and only if the digit
    count exceeds
    [safety_digits_2 - log10 tracking_tolerance
     + log10 (norm_J_inverse * Psi + norm z)],
    [norm z] being the norm of the current point. *)
Theorem CriterionC_iff (NumDigits : Z) (norm_J_inverse : R)
    (z : list (R * R)) (tracking_tolerance : R)
    (cfg : AdaptiveMultiplePrecisionConfig) :
  CriterionC NumDigits norm_J_inverse z tracking_tolerance cfg = true
  <-> spec_CriterionC NumDigits norm_J_inverse (norm z) tracking_tolerance
        cfg.
Proof.
  unfold CriterionC, CriterionCRHS, CriterionCRHS_norm, spec_CriterionC.
  apply Rgtb_true.
Qed.

Lemma CriterionA_rhs_le (cfg : AdaptiveMultiplePrecisionConfig)
    (nJ nJ' nJi nJi' : R) :
  positive_config cfg -> 0 < nJ <= nJ' -> 0 < nJi <= nJi' ->
  log10 (nJi * epsilon cfg * (nJ + Phi cfg))
  <= log10 (nJi' * epsilon cfg * (nJ' + Phi cfg)).
Proof.
  intros [He Hp _] HJ HJi. apply log10_le.
  - apply Rmult_lt_0_compat; [apply Rmult_lt_0_compat |]; lra.
  - apply Rmult_le_compat; nra.
Qed.

Lemma D_le (cfg : AdaptiveMultiplePrecisionConfig) (nJ nJ' nJi nJi' : R) :
  positive_config cfg -> 0 < nJ <= nJ' -> 0 < nJi <= nJi' ->
  D nJ nJi cfg <= D nJ' nJi' cfg.
Proof.
  intros [He Hp _] HJ HJi. unfold D. apply log10_le.
  - assert (0 < nJi * ((2 + epsilon cfg) * nJ + epsilon cfg * Phi cfg)).
    { apply Rmult_lt_0_compat; [lra |].
      apply Rplus_lt_0_compat; apply Rmult_lt_0_compat; lra. }
    lra.
  - apply Rplus_le_compat_r.
    assert (0 < epsilon cfg * Phi cfg) by (apply Rmult_lt_0_compat; lra).
    assert ((2 + epsilon cfg) * nJ <= (2 + epsilon cfg) * nJ')
      by (apply Rmult_le_compat_l; lra).
    assert (0 < (2 + epsilon cfg) * nJ) by (apply Rmult_lt_0_compat; lra).
    apply Rmult_le_compat; lra.
Qed.

(** C5: with the digit count and everything else fixed, and norms and
    constants positive, a larger [norm_J] or [norm_J_inverse] or a smaller
    [tracking_tolerance] never turns a [false] of [CriterionA], [CriterionB]
    or [CriterionC] into a [true]. *)
Theorem criteria_antitone (NumDigits : Z)
    (cfg : AdaptiveMultiplePrecisionConfig)
    (norm_J norm_J' norm_J_inverse norm_J_inverse' : R)
    (tracking_tolerance tracking_tolerance' : R)
    (num_newton_iterations_remaining : N) (latest_residual_norm : R)
    (z : list (R * R)) :
  positive_config cfg ->
  0 < norm_J <= norm_J' ->
  0 < norm_J_inverse <= norm_J_inverse' ->
  0 < tracking_tolerance' <= tracking_tolerance ->
  (CriterionA NumDigits norm_J norm_J_inverse cfg = false ->
   CriterionA NumDigits norm_J' norm_J_inverse' cfg = false)
  /\ (CriterionB NumDigits norm_J norm_J_inverse
        num_newton_iterations_remaining tracking_tolerance
        latest_residual_norm cfg = Ok false ->
      CriterionB NumDigits norm_J' norm_J_inverse'
        num_newton_iterations_remaining tracking_tolerance'
        latest_residual_norm cfg = Ok false)
  /\ (CriterionC NumDigits norm_J_inverse z tracking_tolerance cfg = false ->
      CriterionC NumDigits norm_J_inverse' z tracking_tolerance' cfg
      = false).
Proof.
  intros Hcfg HJ HJi Htol.
  assert (Hlog : log10 tracking_tolerance' <= log10 tracking_tolerance)
    by (apply log10_le; lra).
  split; [| split].
  - unfold CriterionA. rewrite !Rgtb_false.
    pose proof (CriterionA_rhs_le cfg _ _ _ _ Hcfg HJ HJi). lra.
  - unfold CriterionB, CriterionBRHS, quotient.
    destruct (N.eqb_spec num_newton_iterations_remaining 0) as [E | Hn];
      [discriminate |].
    intro H. injection H as H. f_equal. revert H. rewrite !Rgtb_false.
    pose proof (D_le cfg _ _ _ _ Hcfg HJ HJi).
    assert (Hpos : 0 < IZR (Z.of_N num_newton_iterations_remaining))
      by (apply IZR_count_pos; lia).
    assert ((- log10 tracking_tolerance + log10 latest_residual_norm)
            / IZR (Z.of_N num_newton_iterations_remaining)
            <= (- log10 tracking_tolerance' + log10 latest_residual_norm)
               / IZR (Z.of_N num_newton_iterations_remaining)).
    { unfold Rdiv. apply Rmult_le_compat_r.
      - left. apply Rinv_0_lt_compat, Hpos.
      - lra. }
    lra.
  - unfold CriterionC, CriterionCRHS, CriterionCRHS_norm.
    rewrite !Rgtb_false.
    destruct Hcfg as [_ _ Hpsi].
    pose proof (norm_nonneg z).
    assert (log10 (norm_J_inverse * Psi cfg + norm z)
            <= log10 (norm_J_inverse' * Psi cfg + norm z)).
    { apply log10_le.
      - assert (0 < norm_J_inverse * Psi cfg)
          by (apply Rmult_lt_0_compat; lra).
        lra.
      - apply Rplus_le_compat_r, Rmult_le_compat_r; lra. }
    lra.
Qed.

(** C5 at a concrete configuration: the three criteria fail at the easier
    inputs, hence at the harder ones. *)
Lemma criteria_antitone_witness :
  CriterionA 0 1 2 unit_config = false
  /\ CriterionB 0 1 2 3 (1 / 2) 1 unit_config = Ok false
  /\ CriterionC 0 2 [] (1 / 2) unit_config = false.
Proof.
  assert (Hcfg : positive_config unit_config)
    by (constructor; simpl; lra).
  destruct (criteria_antitone 0 unit_config (1 / 2) 1 1 2 1 (1 / 2) 3 1 []
              Hcfg) as [HA [HB HC]]; try lra.
  split; [| split].
  - apply HA. unfold CriterionA. apply Rgtb_false. simpl.
    replace (1 * 1 * (1 / 2 + / 2)) with 1 by lra.
    rewrite log10_1. lra.
  - apply HB. unfold CriterionB, CriterionBRHS, quotient. simpl.
    f_equal. apply Rgtb_false. rewrite log10_1.
    assert (0 <= D (1 / 2) 1 unit_config).
    { unfold D. rewrite <- log10_1. apply log10_le; simpl; lra. }
    unfold Rdiv at 1. lra.
  - apply HC. unfold CriterionC, CriterionCRHS, CriterionCRHS_norm.
    apply Rgtb_false. unfold norm. simpl. rewrite sqrt_0.
    replace (1 * 1 + 0) with 1 by lra. rewrite log10_1. lra.
Defined.

End amp_properties.

(** ** The division of Criterion B *)

Module amp_extended_properties.

Import amp amp_properties.
Local Open Scope R_scope.









End amp_extended_properties.

(** ** Loops and vectors *)

Lemma upto_nil (lo hi : Z) : hi <= lo -> upto lo hi = [].
Proof.
  intro H. unfold upto.
  replace (Z.to_nat (hi - lo)) with 0%nat by lia. reflexivity.
Qed.

Lemma upto_cons (lo hi : Z) : lo < hi -> upto lo hi = lo :: upto (lo + 1) hi.
Proof.
  intro H. unfold upto.
  replace (Z.to_nat (hi - lo)) with (S (Z.to_nat (hi - (lo + 1)))) by lia.
  cbn [seq map]. f_equal; [lia |].
  rewrite <- seq_shift, map_map.
  apply map_ext. intro k. lia.
Qed.

Lemma In_upto (lo hi i : Z) : In i (upto lo hi) <-> lo <= i < hi.
Proof.
  unfold upto. rewrite in_map_iff. split.
  - intros [k [Hk Hin]]. apply in_seq in Hin. lia.
  - intro H. exists (Z.to_nat (i - lo)). split; [lia |].
    apply in_seq. lia.
Qed.

Lemma In_downto (hi lo i : Z) : In i (downto hi lo) <-> lo <= i <= hi.
Proof.
  unfold downto. rewrite <- in_rev, In_upto. lia.
Qed.

Lemma length_update {A : Type} (l : list A) (k : nat) (x : A) :
  List.length (update l k x) = List.length l.
Proof.
  revert k. induction l as [| y l IH]; intros [| k]; simpl; auto.
Qed.

Lemma nth_error_update {A : Type} (l : list A) (k j : nat) (x : A) :
  (k < List.length l)%nat ->
  nth_error (update l k x) j
  = if Nat.eqb j k then Some x else nth_error l j.
Proof.
  revert k j. induction l as [| y l IH]; intros k j Hk; simpl in Hk.
  - lia.
  - destruct k as [| k]; destruct j as [| j]; simpl; try reflexivity.
    apply IH. lia.
Qed.

Lemma size_app {A : Type} (l l' : list A) : size (l ++ l') = size l + size l'.
Proof. unfold size. rewrite length_app. lia. Qed.

Lemma size_nonneg {A : Type} (l : list A) : 0 <= size l.
Proof. unfold size. lia. Qed.

Lemma u32_small (x : Z) : 0 <= x < 2 ^ 32 -> u32 x = x.
Proof. intro H. unfold u32. apply Z.mod_small. exact H. Qed.

Lemma usize_small (x : Z) : 0 <= x < 2 ^ 64 -> usize x = x.
Proof. intro H. unfold usize. apply Z.mod_small. exact H. Qed.

(** ** The interpolation run *)

Section InterpolationProperties.

Context {CT : Type} {SC : Scalar CT}.

Add Field CT_field : (@scalar_field CT SC).

Lemma csub_zero_iff (x y : CT) : csub x y = czero <-> x = y.
Proof.
  split; intro H.
  - assert (E : x = cadd (csub x y) y) by ring.
    rewrite E, H. ring.
  - subst y. ring.
Qed.

Lemma vadd_comm (u v : Vec CT) : vadd u v = vadd v u.
Proof.
  unfold vadd. revert v.
  induction u as [| x u IH]; intros [| y v]; simpl; try reflexivity.
  f_equal; [ring | apply IH].
Qed.

(** *** Rules *)

Lemma triple_ret {A : Type} (P : Frame CT -> Prop) (a : A)
    (Q : A -> Frame CT -> Prop) :
  (forall s, P s -> Q a s) -> triple P (ret a) Q.
Proof. intros H s Hs. exists a, s. split; [reflexivity | auto]. Qed.

Lemma triple_bind {A B : Type} (P : Frame CT -> Prop) (m : M CT A)
    (R : A -> Frame CT -> Prop) (k : A -> M CT B) (Q : B -> Frame CT -> Prop) :
  triple P m R -> (forall a, triple (R a) (k a) Q) -> triple P (bind m k) Q.
Proof.
  intros Hm Hk s Hs. destruct (Hm s Hs) as [a [s' [E Ha]]].
  unfold bind. rewrite E. apply Hk, Ha.
Qed.

Lemma triple_weaken {A : Type} (P P' : Frame CT -> Prop) (m : M CT A)
    (Q Q' : A -> Frame CT -> Prop) :
  (forall s, P' s -> P s) -> (forall a s, Q a s -> Q' a s) ->
  triple P m Q -> triple P' m Q'.
Proof.
  intros HP HQ Hm s Hs. destruct (Hm s (HP s Hs)) as [a [s' [E Ha]]].
  exists a, s'. auto.
Qed.

Lemma triple_pure {A : Type} (fact : Prop) (P : Frame CT -> Prop) (m : M CT A)
    (Q : A -> Frame CT -> Prop) :
  (fact -> triple P m Q) -> triple (fun s => P s /\ fact) m Q.
Proof. intros H s [Hs Hf]. apply (H Hf), Hs. Qed.

Lemma triple_assert (P : Frame CT -> Prop) (b : bool) (message : string) :
  b = true -> triple P (assert b message) (fun _ => P).
Proof. intros -> s Hs. exists tt, s. split; [reflexivity | exact Hs]. Qed.

Lemma triple_at {A : Type} (P : Frame CT -> Prop) (c : list A) (i : Z) :
  0 <= i < size c ->
  triple P (at_ c i) (fun x s => P s /\ nth_error c (Z.to_nat i) = Some x).
Proof.
  intros Hi s Hs. unfold at_.
  replace ((0 <=? i) && (i <? size c)) with true
    by (symmetry; apply andb_true_iff; split; lia).
  destruct (nth_error c (Z.to_nat i)) as [x |] eqn:E.
  - exists x, s. auto.
  - apply nth_error_None in E. unfold size in Hi. lia.
Qed.

Lemma triple_foldM {A : Type} (P : Frame CT -> Prop) (idx : list Z)
    (body : Z -> A -> M CT A) :
  (forall i a, In i idx -> triple P (body i a) (fun _ => P)) ->
  forall a, triple P (foldM idx a body) (fun _ => P).
Proof.
  induction idx as [| i idx IH]; intros Hbody a; simpl.
  - apply triple_ret. auto.
  - eapply triple_bind.
    + apply Hbody. left. reflexivity.
    + intro a'. apply IH. intros j b Hj. apply Hbody. right. exact Hj.
Qed.

Lemma triple_upto (I : Z -> Frame CT -> Prop) (lo hi : Z) (body : Z -> M CT unit) :
  lo <= hi ->
  (forall i, lo <= i < hi -> triple (I i) (body i) (fun _ => I (i + 1))) ->
  triple (I lo) (for_each (upto lo hi) body) (fun _ => I hi).
Proof.
  intro Hle. remember (Z.to_nat (hi - lo)) as d eqn:Ed.
  generalize dependent lo.
  induction d as [| d IH]; intros lo Hle Ed Hbody.
  - assert (lo = hi) by lia. subst lo. rewrite upto_nil by lia.
    apply triple_ret. auto.
  - rewrite upto_cons by lia. unfold for_each. simpl.
    eapply triple_bind.
    + apply Hbody. lia.
    + intros []. apply IH; [lia | lia |].
      intros i Hi. apply Hbody. lia.
Qed.

(** *** The tables keep their shape *)

Lemma in_matrix_shaped (r : Z) (s : Frame CT) (i j : Z) :
  shaped r s -> 0 <= i < r -> 0 <= j < r ->
  in_matrix (space_differences s) i j = true.
Proof.
  intros [Hr [Hc _]] Hi Hj. unfold in_matrix. rewrite Hr, Hc.
  repeat (apply andb_true_iff; split); lia.
Qed.

Lemma triple_get_sd (P : Frame CT -> Prop) (r i j : Z) :
  (forall s, P s -> shaped r s) -> 0 <= i < r -> 0 <= j < r ->
  triple P (get_sd i j) (fun _ => P).
Proof.
  intros HP Hi Hj s Hs. unfold get_sd.
  rewrite (in_matrix_shaped r s i j (HP s Hs) Hi Hj).
  eexists _, s. split; [reflexivity | exact Hs].
Qed.

Lemma triple_set_sd (P : Frame CT -> Prop) (r i j : Z) (v : Vec CT) :
  (forall s, P s -> shaped r s) ->
  (forall s F, P s ->
     rows F = rows (space_differences s) ->
     cols F = cols (space_differences s) ->
     P {| space_differences := F;
          time_differences := time_differences s;
          zero_divisor := zero_divisor s |}) ->
  0 <= i < r -> 0 <= j < r ->
  triple P (set_sd i j v) (fun _ => P).
Proof.
  intros HP Hstable Hi Hj s Hs. unfold set_sd.
  rewrite (in_matrix_shaped r s i j (HP s Hs) Hi Hj).
  eexists tt, _. split; [reflexivity |].
  apply Hstable; [exact Hs | reflexivity | reflexivity].
Qed.

Section Run.

(** The window [n] and the recorded times of one call. *)
Variable n : Z.
Variable times : list CT.

Hypothesis window : 1 <= n < 2 ^ 31.
Hypothesis enough_times : n <= size times < 2 ^ 64.

Lemma recent_some (k : Z) :
  0 <= k < n -> exists x, recent times k = Some x.
Proof.
  intro Hk. unfold recent.
  destruct (nth_error times (Z.to_nat (size times - 1 - k))) as [x |] eqn:E.
  - exists x. reflexivity.
  - apply nth_error_None in E. unfold size in *. lia.
Qed.

Lemma seeding_shaped (k : Z) (s : Frame CT) :
  seeding (2 * n) times k s -> shaped (2 * n) s.
Proof. intros [H _]. exact H. Qed.

Lemma tracks_shaped (E : Prop) (s : Frame CT) :
  tracks (2 * n) times E s -> shaped (2 * n) s.
Proof. intros [H _]. exact H. Qed.

Lemma tracks_iff (E E' : Prop) (s : Frame CT) :
  (E <-> E') -> tracks (2 * n) times E s -> tracks (2 * n) times E' s.
Proof.
  intros HE [Hshape [Hseed Hflag]].
  split; [exact Hshape | split; [exact Hseed |]].
  rewrite Hflag. exact HE.
Qed.

Lemma seeding_set_sd (k i j : Z) (v : Vec CT) :
  0 <= i < 2 * n -> 0 <= j < 2 * n ->
  triple (seeding (2 * n) times k) (set_sd i j v)
         (fun _ => seeding (2 * n) times k).
Proof.
  intros Hi Hj.
  apply triple_set_sd with (r := 2 * n); try assumption.
  - apply seeding_shaped.
  - intros s F [[Hr0 [Hc0 Ht]] [Hseed Hflag]] Hr Hc.
    split; [| split; [exact Hseed | exact Hflag]].
    unfold shaped; simpl. rewrite Hr, Hc. auto.
Qed.

Lemma tracks_set_sd (E : Prop) (i j : Z) (v : Vec CT) :
  0 <= i < 2 * n -> 0 <= j < 2 * n ->
  triple (tracks (2 * n) times E) (set_sd i j v)
         (fun _ => tracks (2 * n) times E).
Proof.
  intros Hi Hj.
  apply triple_set_sd with (r := 2 * n); try assumption.
  - apply tracks_shaped.
  - intros s F [[Hr0 [Hc0 Ht]] [Hseed Hflag]] Hr Hc.
    split; [| split; [exact Hseed | exact Hflag]].
    unfold shaped; simpl. rewrite Hr, Hc. auto.
Qed.

Lemma tracks_get_sd (E : Prop) (i j : Z) :
  0 <= i < 2 * n -> 0 <= j < 2 * n ->
  triple (tracks (2 * n) times E) (get_sd i j)
         (fun _ => tracks (2 * n) times E).
Proof.
  intros Hi Hj. apply triple_get_sd with (r := 2 * n); try assumption.
  apply tracks_shaped.
Qed.

(** Seeding the next entry of [time_differences]. *)
Lemma seeding_set_td (k : Z) (x : CT) :
  0 <= k < 2 * n -> recent times (k / 2) = Some x ->
  triple (seeding (2 * n) times k) (set_td k x)
         (fun _ => seeding (2 * n) times (k + 1)).
Proof.
  intros Hk Hx s [[Hr [Hc Ht]] [Hseed Hflag]]. unfold set_td.
  replace ((0 <=? k) && (k <? size (time_differences s))) with true
    by (symmetry; apply andb_true_iff; split; lia).
  eexists tt, _. split; [reflexivity |].
  split; [| split; [| exact Hflag]].
  - unfold shaped, size in *; simpl. rewrite length_update. auto.
  - intros j Hj. simpl.
    rewrite nth_error_update by (unfold size in Ht; lia).
    destruct (Nat.eqb_spec (Z.to_nat j) (Z.to_nat k)) as [E | E].
    + assert (j = k) by lia. subst j. symmetry. exact Hx.
    + apply Hseed. lia.
Qed.

(** Reading a node back. *)
Lemma tracks_get_td (E : Prop) (i : Z) :
  0 <= i < 2 * n ->
  triple (tracks (2 * n) times E) (get_td i)
         (fun x s => tracks (2 * n) times E s
                     /\ recent times (i / 2) = Some x).
Proof.
  intros Hi s Hs. pose proof Hs as [[Hr [Hc Ht]] [Hseed Hflag]].
  unfold get_td.
  replace ((0 <=? i) && (i <? size (time_differences s))) with true
    by (symmetry; apply andb_true_iff; split; lia).
  rewrite (Hseed i Hi).
  destruct (recent_some (i / 2)) as [x Hx].
  { Z.div_mod_to_equations. lia. }
  rewrite Hx. exists x, s. auto.
Qed.

Lemma tracks_read_td (E : Prop) (i : Z) :
  0 <= i < 2 * n ->
  triple (tracks (2 * n) times E) (get_td i)
         (fun _ => tracks (2 * n) times E).
Proof.
  intro Hi. eapply triple_weaken; [| | apply (tracks_get_td E i Hi)].
  - auto.
  - intros x s [H _]. exact H.
Qed.

(** A quotient: the frame notes a zero divisor. *)
Lemma tracks_quot (E : Prop) (v : Vec CT) (c : CT) :
  triple (tracks (2 * n) times E) (quot v c)
         (fun _ => tracks (2 * n) times (E \/ c = czero)).
Proof.
  intros s [Hshape [Hseed Hflag]]. unfold quot.
  eexists _, _. split; [reflexivity |].
  split; [exact Hshape | split; [exact Hseed |]]. simpl.
  destruct (scalar_eq_dec c czero) as [Ec | Ec].
  - split; auto.
  - rewrite Hflag. tauto.
Qed.

(** A loop whose every round may add a zero divisor. *)
Lemma tracks_for_each (T : Z -> Prop) (idx : list Z) (body : Z -> M CT unit) :
  (forall i, In i idx -> forall E,
     triple (tracks (2 * n) times E) (body i)
            (fun _ => tracks (2 * n) times (E \/ T i))) ->
  forall E,
    triple (tracks (2 * n) times E) (for_each idx body)
           (fun _ => tracks (2 * n) times
                       (E \/ exists i, In i idx /\ T i)).
Proof.
  unfold for_each.
  induction idx as [| i idx IH]; intros Hbody E; simpl.
  - apply triple_ret. intros s Hs.
    apply (tracks_iff E); [| exact Hs].
    split; [auto | intros [H | [j [[] _]]]; exact H].
  - eapply triple_bind.
    + apply Hbody. left. reflexivity.
    + intros []. eapply triple_weaken; [| | apply IH].
      * intros s Hs. exact Hs.
      * intros [] s Hs. cbv beta in Hs.
        apply (tracks_iff ((E \/ T i) \/ exists j, In j idx /\ T j));
          [| exact Hs].
        split.
        -- intros [[H | H] | [j [Hj H]]]; auto.
           ++ right. exists i. auto.
           ++ right. exists j. auto.
        -- intros [H | [j [[Hj | Hj] H]]]; auto.
           ++ subst j. auto.
           ++ right. exists j. auto.
      * intros j Hj. apply Hbody. right. exact Hj.
Qed.

(** The divisors of the run are the differences of the nodes
    [2 <= i < 2n], [i - j] for [2 <= j <= i], and they cover the pairs of
    distinct samples. *)
Lemma divisors_cover :
  ((False \/ exists i, In i (upto 1 n)
                       /\ recent times i = recent times (i - 1))
   \/ exists i, In i (upto 2 (2 * n))
        /\ exists j, In j (upto 2 (i + 1))
             /\ recent times (i / 2) = recent times ((i - j) / 2))
  <-> repeated_time times n.
Proof.
  unfold repeated_time. split.
  - intros [[[] | [i [Hi H]]] | [i [Hi [j [Hj H]]]]].
    + apply In_upto in Hi. exists (i - 1), i.
      repeat split; try lia. symmetry. exact H.
    + apply In_upto in Hi. apply In_upto in Hj.
      exists ((i - j) / 2), (i / 2).
      repeat split; try (Z.div_mod_to_equations; lia).
      symmetry. exact H.
  - intros [a [b [Hab [Hb H]]]]. right.
    exists (2 * b). split; [apply In_upto; lia |].
    exists (2 * b - 2 * a). split; [apply In_upto; lia |].
    replace (2 * b / 2) with b by (Z.div_mod_to_equations; lia).
    replace ((2 * b - (2 * b - 2 * a)) / 2) with a
      by (Z.div_mod_to_equations; lia).
    symmetry. exact H.
Qed.

Lemma triple_declare :
  triple (fun s => s = initial_frame) (declare (2 * n))
         (fun _ => seeding (2 * n) times 0).
Proof.
  intros s ->. unfold declare. eexists tt, _. split; [reflexivity |].
  split; [| split].
  - unfold shaped, size.
    cbn [space_differences time_differences rows cols].
    rewrite repeat_length. repeat split; lia.
  - intros j Hj. lia.
  - reflexivity.
Qed.

Ltac wrap_free :=
  rewrite ?usize_small, ?u32_small by lia.

Ltac next rule := eapply triple_bind; [ rule | intros ? ].

Ltac drop_fact := cbv beta; apply triple_pure; intros _.
Ltac keep_fact H := cbv beta; apply triple_pure; intros H.

Lemma body_tracks (target_time : CT) (samples derivatives : list (Vec CT)) :
  n <= size samples < 2 ^ 64 ->
  n <= size derivatives < 2 ^ 64 ->
  triple (fun s => s = initial_frame)
         (HermiteInterpolateAndSolve_body target_time n times samples
            derivatives)
         (fun _ s => zero_divisor s = true <-> repeated_time times n).
Proof.
  intros enough_samples enough_derivatives.
  unfold HermiteInterpolateAndSolve_body.
  rewrite !(u32_small (2 * n)), !(u32_small (2 * n - 1)),
    !(u32_small (n - 1)) by lia.
  next ltac:(apply triple_assert; apply Z.leb_le; lia).
  next ltac:(apply triple_assert; apply Z.leb_le; lia).
  next ltac:(apply triple_assert; apply Z.leb_le; lia).
  next ltac:(apply triple_declare).
  (* seeding *)
  eapply triple_bind.
  { apply (triple_upto (fun i => seeding (2 * n) times (2 * i)) 0 n);
      [lia |].
    intros ii Hii. wrap_free.
    next ltac:(apply triple_at; lia). drop_fact.
    next ltac:(apply seeding_set_sd; lia).
    next ltac:(apply triple_at; lia). drop_fact.
    next ltac:(apply seeding_set_sd; lia).
    next ltac:(apply triple_at; lia). drop_fact.
    next ltac:(apply seeding_set_sd; lia).
    next ltac:(apply triple_at; lia). keep_fact Ht0.
    next ltac:(apply seeding_set_td;
               [lia | replace (2 * ii / 2) with ii
                        by (Z.div_mod_to_equations; lia); exact Ht0]).
    next ltac:(apply triple_at; lia). keep_fact Ht1.
    replace (2 * (ii + 1)) with (2 * ii + 1 + 1) by lia.
    apply seeding_set_td; [lia |].
    replace ((2 * ii + 1) / 2) with ii by (Z.div_mod_to_equations; lia).
    exact Ht1. }
  intros ?; cbv beta.
  (* first differences *)
  eapply triple_bind.
  { eapply triple_weaken;
      [ | | apply (tracks_for_each
                     (fun i => recent times i = recent times (i - 1)))
                  with (E := False) ].
    - intros s [Hshape [Hseed Hflag]].
      split; [exact Hshape | split; [exact Hseed |]].
      rewrite Hflag. split; [discriminate | tauto].
    - intros ? s Hs. exact Hs.
    - intros ii Hii E. apply In_upto in Hii. wrap_free.
      next ltac:(apply tracks_get_sd; lia).
      next ltac:(apply tracks_get_sd; lia).
      next ltac:(apply tracks_get_td; lia). keep_fact Hta.
      next ltac:(apply tracks_get_td; lia). keep_fact Htb.
      next ltac:(apply tracks_quot).
      eapply triple_weaken; [| | apply tracks_set_sd; lia].
      + intros s Hs. exact Hs.
      + intros [] s Hs. cbv beta in Hs. revert Hs. apply tracks_iff.
        replace (2 * ii / 2) with ii in Hta
          by (Z.div_mod_to_equations; lia).
        replace ((2 * ii - 1) / 2) with (ii - 1) in Htb
          by (Z.div_mod_to_equations; lia).
        rewrite Hta, Htb, csub_zero_iff.
        split; (intros [H | H]; [left; exact H | right; congruence]). }
  intros ?; cbv beta.
  (* the remaining columns *)
  eapply triple_bind.
  { apply (tracks_for_each
             (fun i => exists j, In j (upto 2 (i + 1))
                /\ recent times (i / 2) = recent times ((i - j) / 2))).
    intros ii Hii E. apply In_upto in Hii.
    apply (tracks_for_each
             (fun j => recent times (ii / 2) = recent times ((ii - j) / 2))).
    intros jj Hjj E'. apply In_upto in Hjj. wrap_free.
    next ltac:(apply tracks_get_sd; lia).
    next ltac:(apply tracks_get_sd; lia).
    next ltac:(apply tracks_get_td; lia). keep_fact Hta.
    next ltac:(apply tracks_get_td; lia). keep_fact Htb.
    next ltac:(apply tracks_quot).
    eapply triple_weaken; [| | apply tracks_set_sd; lia].
    + intros s Hs. exact Hs.
    + intros [] s Hs. cbv beta in Hs. revert Hs. apply tracks_iff.
      rewrite Hta, Htb, csub_zero_iff.
      split; (intros [H | H]; [left; exact H | right; congruence]). }
  intros ?; cbv beta.
  (* the nested evaluation *)
  next ltac:(apply tracks_get_sd; lia).
  eapply triple_bind.
  { apply triple_foldM. intros ii Result Hii. apply In_downto in Hii.
    wrap_free.
    next ltac:(apply tracks_read_td; lia).
    next ltac:(apply tracks_get_sd; lia).
    next ltac:(apply tracks_read_td; lia).
    next ltac:(apply tracks_get_sd; lia).
    apply triple_ret. auto. }
  intros Result.
  next ltac:(apply tracks_read_td; lia).
  next ltac:(apply tracks_get_sd; lia).
  apply triple_ret. intros s [_ [_ Hflag]].
  rewrite Hflag. apply divisors_cover.
Qed.

End Run.

(** The outcome of a call whose window fits the containers. *)
Lemma run_outcome (target_time : CT) (n : Z) (times : list CT)
    (samples derivatives : list (Vec CT)) :
  1 <= n < 2 ^ 31 ->
  n <= size times < 2 ^ 64 ->
  n <= size samples < 2 ^ 64 ->
  n <= size derivatives < 2 ^ 64 ->
  (repeated_time times n
   /\ HermiteInterpolateAndSolve target_time n times samples derivatives
      = Err DivisionByZero)
  \/ (~ repeated_time times n
      /\ exists v,
           HermiteInterpolateAndSolve target_time n times samples derivatives
           = Ok v).
Proof.
  intros Hn Ht Hs Hd.
  destruct (body_tracks n times Hn Ht target_time samples derivatives Hs Hd
              initial_frame eq_refl) as [v [s [Hrun Hflag]]].
  unfold HermiteInterpolateAndSolve. rewrite Hrun.
  destruct (zero_divisor s).
  - left. split; [apply Hflag |]; reflexivity.
  - right. split; [| exists v; reflexivity].
    intro H. apply Hflag in H. discriminate H.
Qed.

Lemma failed_assertion (target_time : CT) (n : Z) (times : list CT)
    (samples derivatives : list (Vec CT)) :
  size times < n \/ size samples < n \/ size derivatives < n ->
  exists message,
    HermiteInterpolateAndSolve target_time n times samples derivatives
    = Err (AssertionFailed message).
Proof.
  intro H.
  unfold HermiteInterpolateAndSolve, HermiteInterpolateAndSolve_body.
  unfold bind at 1. unfold assert at 1.
  destruct (Z.leb_spec n (size times)) as [Ht | Ht];
    [| eexists; reflexivity].
  unfold bind at 1. unfold assert at 1.
  destruct (Z.leb_spec n (size samples)) as [Hs | Hs];
    [| eexists; reflexivity].
  unfold bind at 1. unfold assert at 1.
  destruct (Z.leb_spec n (size derivatives)) as [Hd | Hd];
    [| eexists; reflexivity].
  lia.
Qed.

(** C8, amended: for containers of representable size, a call with
    [1 <= num_sample_points < 2^31] and at least [num_sample_points]
    entries in each of [times], [samples] and [derivatives] fails no
    assertion and stays in bounds at every container access and table
    index (it returns, or reports the division by zero it ran through);
    and a call with fewer entries in any of the three containers fails an
    assertion. *)
Theorem HermiteInterpolateAndSolve_contract (target_time : CT)
    (num_sample_points : Z) (times : list CT)
    (samples derivatives : list (Vec CT)) :
  size times < 2 ^ 64 ->
  size samples < 2 ^ 64 ->
  size derivatives < 2 ^ 64 ->
  (1 <= num_sample_points < 2 ^ 31 ->
   num_sample_points <= size times
   /\ num_sample_points <= size samples
   /\ num_sample_points <= size derivatives ->
   (exists v,
      HermiteInterpolateAndSolve target_time num_sample_points times samples
        derivatives = Ok v)
   \/ HermiteInterpolateAndSolve target_time num_sample_points times samples
        derivatives = Err DivisionByZero)
  /\ (size times < num_sample_points
      \/ size samples < num_sample_points
      \/ size derivatives < num_sample_points ->
      exists message,
        HermiteInterpolateAndSolve target_time num_sample_points times
          samples derivatives = Err (AssertionFailed message)).
Proof.
  intros Ht Hs Hd. split.
  - intros Hn [Ht' [Hs' Hd']].
    destruct (run_outcome target_time num_sample_points times samples
                derivatives Hn) as [[_ H] | [_ H]]; try lia; auto.
  - apply failed_assertion.
Qed.

(** C10: a call whose window fits the containers divides by zero if and
    only if two of the [num_sample_points] latest recorded times are
    equal: the doubled nodes themselves never meet in a denominator, any
    two distinct samples do. *)
Theorem HermiteInterpolateAndSolve_divides_by_zero (target_time : CT)
    (num_sample_points : Z) (times : list CT)
    (samples derivatives : list (Vec CT)) :
  1 <= num_sample_points < 2 ^ 31 ->
  num_sample_points <= size times < 2 ^ 64 ->
  num_sample_points <= size samples < 2 ^ 64 ->
  num_sample_points <= size derivatives < 2 ^ 64 ->
  HermiteInterpolateAndSolve target_time num_sample_points times samples
    derivatives = Err DivisionByZero
  <-> repeated_time times num_sample_points.
Proof.
  intros Hn Ht Hs Hd.
  destruct (run_outcome target_time num_sample_points times samples
              derivatives Hn Ht Hs Hd) as [[Hrep H] | [Hrep [v H]]];
    rewrite H.
  - tauto.
  - split; [discriminate | contradiction].
Qed.

Lemma last_index {A : Type} (l : list A) (x : A) :
  size (l ++ [x]) < 2 ^ 64 ->
  usize (size (l ++ [x]) - 1 - 0) = size l.
Proof.
  intro H. rewrite size_app in *. change (size [x]) with 1 in *.
  pose proof (size_nonneg l).
  replace (size l + 1 - 1 - 0) with (size l) by lia.
  apply usize_small. lia.
Qed.

Lemma last_in_bounds {A : Type} (l : list A) (x : A) :
  (0 <=? size l) && (size l <? size (l ++ [x])) = true.
Proof.
  rewrite size_app. change (size [x]) with 1.
  pose proof (size_nonneg l).
  apply andb_true_iff. split; lia.
Qed.

Lemma nth_error_last {A : Type} (l : list A) (x : A) :
  nth_error (l ++ [x]) (Z.to_nat (size l)) = Some x.
Proof.
  unfold size. rewrite Nat2Z.id, nth_error_app2 by lia.
  rewrite Nat.sub_diag. reflexivity.
Qed.

(** C6: with [num_sample_points = 1] the call returns
    [p + d * (target_time - t0)] for the latest sample (time [t0], point
    [p], derivative [d]), whatever was recorded before it. *)
Theorem HermiteInterpolateAndSolve_one_sample (target_time : CT)
    (earlier_times : list CT) (t0 : CT)
    (earlier_samples : list (Vec CT)) (p : Vec CT)
    (earlier_derivatives : list (Vec CT)) (d : Vec CT) :
  size (earlier_times ++ [t0]) < 2 ^ 64 ->
  size (earlier_samples ++ [p]) < 2 ^ 64 ->
  size (earlier_derivatives ++ [d]) < 2 ^ 64 ->
  HermiteInterpolateAndSolve target_time 1 (earlier_times ++ [t0])
    (earlier_samples ++ [p]) (earlier_derivatives ++ [d])
  = Ok (vadd p (vscale d (csub target_time t0))).
Proof.
  intros Ht Hs Hd.
  unfold HermiteInterpolateAndSolve, HermiteInterpolateAndSolve_body.
  replace (1 <=? size (earlier_times ++ [t0])) with true
    by (symmetry; rewrite size_app; apply Z.leb_le;
        pose proof (size_nonneg earlier_times); unfold size at 2;
        cbn [List.length]; lia).
  replace (1 <=? size (earlier_samples ++ [p])) with true
    by (symmetry; rewrite size_app; apply Z.leb_le;
        pose proof (size_nonneg earlier_samples); unfold size at 2;
        cbn [List.length]; lia).
  replace (1 <=? size (earlier_derivatives ++ [d])) with true
    by (symmetry; rewrite size_app; apply Z.leb_le;
        pose proof (size_nonneg earlier_derivatives); unfold size at 2;
        cbn [List.length]; lia).
  change (upto 0 1) with [0]. unfold for_each at 1. cbn [foldM].
  unfold at_.
  rewrite (last_index _ _ Ht), (last_index _ _ Hs), (last_index _ _ Hd).
  rewrite !last_in_bounds, !nth_error_last.
  rewrite vadd_comm. reflexivity.
Qed.

(** At [num_sample_points = 2^31] the table size [2 * num_sample_points]
    wraps to 0, and the first assignment to the table is out of bounds. *)
Lemma HermiteInterpolateAndSolve_wrapped_window (target_time : CT)
    (times : list CT) (samples derivatives : list (Vec CT)) :
  2 ^ 31 <= size times ->
  2 ^ 31 <= size samples < 2 ^ 64 ->
  2 ^ 31 <= size derivatives ->
  HermiteInterpolateAndSolve target_time (2 ^ 31) times samples derivatives
  = Err IndexOutOfBounds.
Proof.
  intros Ht Hs Hd.
  unfold HermiteInterpolateAndSolve, HermiteInterpolateAndSolve_body.
  replace (2 ^ 31 <=? size times) with true
    by (symmetry; apply Z.leb_le; lia).
  replace (2 ^ 31 <=? size samples) with true
    by (symmetry; apply Z.leb_le; lia).
  replace (2 ^ 31 <=? size derivatives) with true
    by (symmetry; apply Z.leb_le; lia).
  change (u32 (2 * 2 ^ 31)) with 0.
  rewrite (upto_cons 0 (2 ^ 31)) by lia.
  unfold for_each at 1. cbn [foldM].
  unfold at_ at 1.
  rewrite (usize_small (size samples - 1 - 0)) by lia.
  replace ((0 <=? size samples - 1 - 0)
           && (size samples - 1 - 0 <? size samples)) with true
    by (symmetry; apply andb_true_iff; split; lia).
  destruct (nth_error samples (Z.to_nat (size samples - 1 - 0)))
    as [x |] eqn:E; reflexivity.
Qed.

End InterpolationProperties.

(** ** Runs in rational arithmetic *)

Lemma Q2Qc_this (q : Qc) : Q2Qc (this q) = q.
Proof. apply Qc_is_canon. simpl. apply Qred_correct. Qed.

Lemma values_Ok (r : result (Vec Qc)) (qs : list Q) :
  values r = Ok qs -> r = Ok (map Q2Qc qs).
Proof.
  destruct r as [v | e]; simpl; intro H; [| discriminate H].
  injection H as <-. f_equal. rewrite map_map.
  induction v as [| q v IH]; simpl; [reflexivity |].
  rewrite Q2Qc_this. f_equal. exact IH.
Qed.

(** C1, on the code: from the two exact samples of the cubic path [t^3]
    at the times 1 and 0, a window of 2 evaluated at time 2 returns 12,
    where the path, of degree [2 * 2 - 1], has the value 8. *)
Theorem HermiteInterpolateAndSolve_cubic :
  HermiteInterpolateAndSolve (rational 2 1) 2 cubic_times
    (sampled cubic cubic_times) (sampled cubic' cubic_times)
  = Ok [rational 12 1]
  /\ cubic (rational 2 1) = rational 8 1.
Proof.
  split.
  - apply (values_Ok _ [12 # 1]%Q). vm_compute. reflexivity.
  - apply Qc_is_canon. vm_compute. reflexivity.
Qed.

(** C7: from the three samples of [t^2 + 1] at the times 0.1, 0.01 and
    0.001, with derivatives [2 t], a window of 3 evaluated at time 0
    returns a value within [1e-6] of 1. *)
Theorem HermiteInterpolateAndSolve_parabola :
  exists v : Qc,
    HermiteInterpolateAndSolve (rational 0 1) 3 parabola_times
      (sampled parabola parabola_times) (sampled parabola' parabola_times)
    = Ok [v]
    /\ (Qcabs (v - rational 1 1) <= rational 1 1000000)%Qc.
Proof.
  exists (rational 1 1). split.
  - apply (values_Ok _ [1 # 1]%Q). vm_compute. reflexivity.
  - unfold Qcle. vm_compute. discriminate.
Qed.

(** C8 fails for an empty window: every container holds at least 0
    entries, and the call reads [space_differences] at row [2 * 0 - 1],
    which wraps to [2^32 - 1]. *)
Lemma HermiteInterpolateAndSolve_empty_window :
  0 <= size (@nil Qc)
  /\ 0 <= size (@nil (Vec Qc))
  /\ HermiteInterpolateAndSolve (rational 0 1) 0 [] [] []
     = Err IndexOutOfBounds.
Proof.
  split; [| split].
  - vm_compute. discriminate.
  - vm_compute. discriminate.
  - vm_compute. reflexivity.
Qed.

(** C8, amended, on the three samples of the parabola. *)
Lemma HermiteInterpolateAndSolve_contract_witness :
  (exists v,
     HermiteInterpolateAndSolve (rational 0 1) 3 parabola_times
       (sampled parabola parabola_times) (sampled parabola' parabola_times)
     = Ok v)
  \/ HermiteInterpolateAndSolve (rational 0 1) 3 parabola_times
       (sampled parabola parabola_times) (sampled parabola' parabola_times)
     = Err DivisionByZero.
Proof.
  apply (HermiteInterpolateAndSolve_contract (rational 0 1) 3 parabola_times
           (sampled parabola parabola_times)
           (sampled parabola' parabola_times)).
  - vm_compute. reflexivity.
  - vm_compute. reflexivity.
  - vm_compute. reflexivity.
  - lia.
  - repeat split; vm_compute; discriminate.
Defined.

(** C10 on a history that records the same time twice. *)
Lemma HermiteInterpolateAndSolve_divides_by_zero_witness :
  HermiteInterpolateAndSolve (rational 0 1) 2 stalled_times
    (sampled cubic stalled_times) (sampled cubic' stalled_times)
  = Err DivisionByZero
  <-> repeated_time stalled_times 2.
Proof.
  apply (HermiteInterpolateAndSolve_divides_by_zero (rational 0 1) 2
           stalled_times (sampled cubic stalled_times)
           (sampled cubic' stalled_times)).
  - lia.
  - split; [vm_compute; discriminate | vm_compute; reflexivity].
  - split; [vm_compute; discriminate | vm_compute; reflexivity].
  - split; [vm_compute; discriminate | vm_compute; reflexivity].
Defined.

(** C6 on the latest of two samples of the parabola. *)
Lemma HermiteInterpolateAndSolve_one_sample_witness :
  HermiteInterpolateAndSolve (rational 0 1) 1
    ([rational 1 10] ++ [rational 1 100])
    ([[parabola (rational 1 10)]] ++ [[parabola (rational 1 100)]])
    ([[parabola' (rational 1 10)]] ++ [[parabola' (rational 1 100)]])
  = Ok (vadd [parabola (rational 1 100)]
          (vscale [parabola' (rational 1 100)]
             (csub (rational 0 1) (rational 1 100)))).
Proof.
  apply (HermiteInterpolateAndSolve_one_sample (rational 0 1)
           [rational 1 10] (rational 1 100)
           [[parabola (rational 1 10)]] [parabola (rational 1 100)]
           [[parabola' (rational 1 10)]] [parabola' (rational 1 100)]).
  - vm_compute. reflexivity.
  - vm_compute. reflexivity.
  - vm_compute. reflexivity.
Defined.

(** ** More on the precision criteria *)

Module amp_precision.

Import amp amp_properties.
Local Open Scope R_scope.

(** The least integer above a real bound. *)
Lemma above_iff_up (r : R) (d : Z) : IZR d > r <-> (up r <= d)%Z.
Proof.
  destruct (archimed r) as [Hup Hnear]. split; intro H.
  - assert (Hlt : IZR (up r) < IZR d + 1) by lra.
    rewrite <- plus_IZR in Hlt. apply lt_IZR in Hlt. lia.
  - apply IZR_le in H. lra.
Qed.

Lemma log10_10 : log10 10 = 1.
Proof.
  unfold log10. field. pose proof ln_10_pos. lra.
Qed.

Lemma log10_nonneg (x : R) : 1 <= x -> 0 <= log10 x.
Proof. intro H. rewrite <- log10_1. apply log10_le; lra. Qed.

(** X1: for positive norms, constants, tolerance and residual (so that
    every logarithm has a positive argument) and a positive count of
    remaining iterations, each criterion has a least adequate digit
    count: it passes exactly for the working precisions of at least that
    many digits. *)
Theorem criteria_least_digits (norm_J norm_J_inverse : R)
    (num_newton_iterations_remaining : N)
    (tracking_tolerance latest_residual_norm : R) (z : list (R * R))
    (cfg : AdaptiveMultiplePrecisionConfig) :
  positive_config cfg ->
  0 < norm_J ->
  0 < norm_J_inverse ->
  0 < tracking_tolerance ->
  0 < latest_residual_norm ->
  (0 < num_newton_iterations_remaining)%N ->
  exists dA dB dC : Z,
    (forall NumDigits,
       CriterionA NumDigits norm_J norm_J_inverse cfg = true
       <-> (dA <= NumDigits)%Z)
    /\ (forall NumDigits,
          CriterionB NumDigits norm_J norm_J_inverse
            num_newton_iterations_remaining tracking_tolerance
            latest_residual_norm cfg = Ok true
          <-> (dB <= NumDigits)%Z)
    /\ (forall NumDigits,
          CriterionC NumDigits norm_J_inverse z tracking_tolerance cfg = true
          <-> (dC <= NumDigits)%Z).
Proof.
  intros _ _ _ _ _ Hn.
  exists (up (IZR (safety_digits_1 cfg)
              + log10 (norm_J_inverse * epsilon cfg
                       * (norm_J + Phi cfg)))).
  exists (up (IZR (safety_digits_1 cfg) + D norm_J norm_J_inverse cfg
              + (- log10 tracking_tolerance + log10 latest_residual_norm)
                / IZR (Z.of_N num_newton_iterations_remaining))).
  exists (up (CriterionCRHS norm_J_inverse z tracking_tolerance cfg)).
  split; [| split]; intro NumDigits.
  - unfold CriterionA. rewrite Rgtb_true. apply above_iff_up.
  - unfold CriterionB, CriterionBRHS. rewrite (quotient_pos _ _ Hn).
    rewrite <- above_iff_up, <- Rgtb_true.
    split; intro H; [injection H as H; exact H | f_equal; exact H].
  - unfold CriterionC. rewrite Rgtb_true. apply above_iff_up.
Qed.

(** X1 at three remaining iterations. *)
Lemma criteria_least_digits_witness :
  exists dA dB dC : Z,
    (forall NumDigits,
       CriterionA NumDigits 1 1 unit_config = true <-> (dA <= NumDigits)%Z)
    /\ (forall NumDigits,
          CriterionB NumDigits 1 1 3 1 1 unit_config = Ok true
          <-> (dB <= NumDigits)%Z)
    /\ (forall NumDigits,
          CriterionC NumDigits 1 [] 1 unit_config = true
          <-> (dC <= NumDigits)%Z).
Proof.
  apply (criteria_least_digits 1 1 3 1 1 [] unit_config).
  - constructor; simpl; lra.
  - lra.
  - lra.
  - lra.
  - lra.
  - reflexivity.
Defined.

Lemma CriterionA_rhs_le_D (cfg : AdaptiveMultiplePrecisionConfig)
    (norm_J norm_J_inverse : R) :
  positive_config cfg -> 0 < norm_J -> 0 < norm_J_inverse ->
  log10 (norm_J_inverse * epsilon cfg * (norm_J + Phi cfg))
  <= D norm_J norm_J_inverse cfg.
Proof.
  intros [He Hp _] HJ HJi. unfold D. apply log10_le.
  - apply Rmult_lt_0_compat; [apply Rmult_lt_0_compat |]; lra.
  - assert (0 < norm_J_inverse * norm_J) by (apply Rmult_lt_0_compat; lra).
    nra.
Qed.

Lemma D_nonneg (cfg : AdaptiveMultiplePrecisionConfig)
    (norm_J norm_J_inverse : R) :
  positive_config cfg -> 0 < norm_J -> 0 < norm_J_inverse ->
  0 <= D norm_J norm_J_inverse cfg.
Proof.
  intros [He Hp _] HJ HJi. unfold D. apply log10_nonneg.
  assert (0 < norm_J_inverse
              * ((2 + epsilon cfg) * norm_J + epsilon cfg * Phi cfg)).
  { apply Rmult_lt_0_compat; [lra |].
    apply Rplus_lt_0_compat; apply Rmult_lt_0_compat; lra. }
  lra.
Qed.

Lemma residual_term_nonneg (tracking_tolerance latest_residual_norm : R)
    (n : N) :
  0 < tracking_tolerance <= latest_residual_norm -> (0 < n)%N ->
  0 <= (- log10 tracking_tolerance + log10 latest_residual_norm)
       / IZR (Z.of_N n).
Proof.
  intros Htol Hn.
  assert (log10 tracking_tolerance <= log10 latest_residual_norm)
    by (apply log10_le; lra).
  pose proof (IZR_count_pos n Hn).
  apply Rmult_le_pos; [lra |].
  left. apply Rinv_0_lt_compat. assumption.
Qed.

(** X2: with positive norms and constants and a latest residual that is
    not below the tracking tolerance, a precision that passes Criterion B
    passes Criterion A as well, and has more digits than
    [safety_digits_1]. *)
Theorem CriterionB_implies_CriterionA (NumDigits : Z)
    (norm_J norm_J_inverse : R) (num_newton_iterations_remaining : N)
    (tracking_tolerance latest_residual_norm : R)
    (cfg : AdaptiveMultiplePrecisionConfig) :
  positive_config cfg ->
  0 < norm_J ->
  0 < norm_J_inverse ->
  0 < tracking_tolerance <= latest_residual_norm ->
  CriterionB NumDigits norm_J norm_J_inverse num_newton_iterations_remaining
    tracking_tolerance latest_residual_norm cfg = Ok true ->
  CriterionA NumDigits norm_J norm_J_inverse cfg = true
  /\ (safety_digits_1 cfg < NumDigits)%Z.
Proof.
  intros Hcfg HJ HJi Htol.
  unfold CriterionB, CriterionBRHS, quotient.
  destruct (N.eqb_spec num_newton_iterations_remaining 0) as [E | Hn];
    [discriminate |].
  intro H. injection H as H. apply Rgtb_true in H.
  pose proof (CriterionA_rhs_le_D cfg norm_J norm_J_inverse Hcfg HJ HJi).
  pose proof (D_nonneg cfg norm_J norm_J_inverse Hcfg HJ HJi).
  assert (Hpos : (0 < num_newton_iterations_remaining)%N) by lia.
  pose proof (residual_term_nonneg tracking_tolerance latest_residual_norm
                num_newton_iterations_remaining Htol Hpos).
  split.
  - unfold CriterionA. apply Rgtb_true. lra.
  - apply lt_IZR. lra.
Qed.

Lemma CriterionB_unit_passes :
  CriterionB 16 1 1 3 1 1 unit_config = Ok true.
Proof.
  unfold CriterionB, CriterionBRHS, quotient. simpl. f_equal.
  apply Rgtb_true. rewrite log10_1.
  assert (D 1 1 unit_config <= 1).
  { apply Rle_trans with (log10 10); [| rewrite log10_10; lra].
    unfold D. apply log10_le; simpl; lra. }
  unfold Rdiv at 1. lra.
Qed.

(** X2 at sixteen digits. *)
Lemma CriterionB_implies_CriterionA_witness :
  CriterionA 16 1 1 unit_config = true
  /\ (safety_digits_1 unit_config < 16)%Z.
Proof.
  apply (CriterionB_implies_CriterionA 16 1 1 3 1 1 unit_config).
  - constructor; simpl; lra.
  - lra.
  - lra.
  - lra.
  - exact CriterionB_unit_passes.
Defined.

(** X3: while the latest residual is not below the tracking tolerance,
    Criterion B stays passed when more Newton iterations remain; once the
    residual is not above the tolerance, it stays passed when fewer
    remain. *)
Theorem CriterionB_iterations (NumDigits : Z) (norm_J norm_J_inverse : R)
    (fewer more : N) (tracking_tolerance latest_residual_norm : R)
    (cfg : AdaptiveMultiplePrecisionConfig) :
  0 < tracking_tolerance ->
  0 < latest_residual_norm ->
  (0 < fewer <= more)%N ->
  (tracking_tolerance <= latest_residual_norm ->
   CriterionB NumDigits norm_J norm_J_inverse fewer tracking_tolerance
     latest_residual_norm cfg = Ok true ->
   CriterionB NumDigits norm_J norm_J_inverse more tracking_tolerance
     latest_residual_norm cfg = Ok true)
  /\ (latest_residual_norm <= tracking_tolerance ->
      CriterionB NumDigits norm_J norm_J_inverse more tracking_tolerance
        latest_residual_norm cfg = Ok true ->
      CriterionB NumDigits norm_J norm_J_inverse fewer tracking_tolerance
        latest_residual_norm cfg = Ok true).
Proof.
  intros Htol Hres [Hfewer Hle].
  assert (Hmore : (0 < more)%N) by lia.
  unfold CriterionB, CriterionBRHS.
  rewrite (quotient_pos _ _ Hfewer), (quotient_pos _ _ Hmore).
  pose proof (IZR_count_pos fewer Hfewer) as Hf.
  pose proof (IZR_count_pos more Hmore) as Hm.
  assert (Hinv : / IZR (Z.of_N more) <= / IZR (Z.of_N fewer)).
  { apply Rinv_le_contravar; [exact Hf |]. apply IZR_le. lia. }
  assert (Hposinv : 0 < / IZR (Z.of_N more))
    by (apply Rinv_0_lt_compat; exact Hm).
  unfold Rdiv.
  set (x := - log10 tracking_tolerance + log10 latest_residual_norm).
  split; intros Hcmp H; injection H as H; apply Rgtb_true in H;
    f_equal; apply Rgtb_true.
  - assert (0 <= x)
      by (pose proof (log10_le tracking_tolerance latest_residual_norm
                        Htol Hcmp); unfold x; lra).
    assert (x * / IZR (Z.of_N more) <= x * / IZR (Z.of_N fewer))
      by (apply Rmult_le_compat_l; assumption).
    lra.
  - assert (x <= 0)
      by (pose proof (log10_le latest_residual_norm tracking_tolerance
                        Hres Hcmp); unfold x; lra).
    assert (x * / IZR (Z.of_N fewer) <= x * / IZR (Z.of_N more)) by nra.
    lra.
Qed.

(** X3 from three to five remaining iterations. *)
Lemma CriterionB_iterations_witness :
  CriterionB 16 1 1 5 1 1 unit_config = Ok true.
Proof.
  destruct (CriterionB_iterations 16 1 1 3 5 1 1 unit_config) as [H _].
  - lra.
  - lra.
  - lia.
  - apply H; [lra | exact CriterionB_unit_passes].
Defined.



End amp_precision.

Section HistoryWindow.

Context {CT : Type} {SC : Scalar CT}.

Lemma bind_ext {A B : Type} (m m' : M CT A) (k k' : A -> M CT B) :
  (forall s, m s = m' s) -> (forall a s, k a s = k' a s) ->
  forall s, bind m k s = bind m' k' s.
Proof.
  intros Hm Hk s. unfold bind. rewrite Hm.
  destruct (m' s) as [[a s'] | e]; [apply Hk | reflexivity].
Qed.

Lemma foldM_ext {A : Type} (idx : list Z) (body body' : Z -> A -> M CT A) :
  (forall i, In i idx -> forall a s, body i a s = body' i a s) ->
  forall a s, foldM idx a body s = foldM idx a body' s.
Proof.
  induction idx as [| i idx IH]; intros Hbody a s; simpl; [reflexivity |].
  apply bind_ext.
  - apply Hbody. left. reflexivity.
  - intros a' s'. apply IH. intros j Hj. apply Hbody. right. exact Hj.
Qed.

(** Counted from the latest entry, a longer history reads the same. *)
Lemma at_older {A : Type} (older c : list A) (ii : Z) :
  0 <= ii < size c -> size (older ++ c) < 2 ^ 64 ->
  forall s : Frame CT,
    at_ (older ++ c) (usize (size (older ++ c) - 1 - ii)) s
    = at_ c (usize (size c - 1 - ii)) s.
Proof.
  intros Hii Hsize s. rewrite size_app in *.
  pose proof (size_nonneg older) as Ho.
  rewrite !usize_small by lia. unfold at_. rewrite size_app.
  replace ((0 <=? size older + size c - 1 - ii)
           && (size older + size c - 1 - ii <? size older + size c))
    with true by (symmetry; apply andb_true_iff; split; lia).
  replace ((0 <=? size c - 1 - ii) && (size c - 1 - ii <? size c))
    with true by (symmetry; apply andb_true_iff; split; lia).
  unfold size in *. rewrite nth_error_app2 by lia.
  replace (Z.to_nat (Z.of_nat (List.length older)
                     + Z.of_nat (List.length c) - 1 - ii)
           - List.length older)%nat
    with (Z.to_nat (Z.of_nat (List.length c) - 1 - ii)) by lia.
  reflexivity.
Qed.

(** X5: the call reads the [num_sample_points] latest entries only:
    whatever was recorded before the entries of a history that holds the
    window does not change the result. *)
Theorem HermiteInterpolateAndSolve_older_history (target_time : CT)
    (num_sample_points : Z)
    (older_times times : list CT)
    (older_samples samples older_derivatives derivatives : list (Vec CT)) :
  num_sample_points <= size times ->
  num_sample_points <= size samples ->
  num_sample_points <= size derivatives ->
  size (older_times ++ times) < 2 ^ 64 ->
  size (older_samples ++ samples) < 2 ^ 64 ->
  size (older_derivatives ++ derivatives) < 2 ^ 64 ->
  HermiteInterpolateAndSolve target_time num_sample_points
    (older_times ++ times) (older_samples ++ samples)
    (older_derivatives ++ derivatives)
  = HermiteInterpolateAndSolve target_time num_sample_points times samples
      derivatives.
Proof.
  intros Ht Hs Hd Ht' Hs' Hd'.
  unfold HermiteInterpolateAndSolve.
  enough (E : forall s,
             HermiteInterpolateAndSolve_body target_time num_sample_points
               (older_times ++ times) (older_samples ++ samples)
               (older_derivatives ++ derivatives) s
             = HermiteInterpolateAndSolve_body target_time num_sample_points
                 times samples derivatives s)
    by (rewrite E; reflexivity).
  unfold HermiteInterpolateAndSolve_body.
  pose proof (size_nonneg older_times).
  pose proof (size_nonneg older_samples).
  pose proof (size_nonneg older_derivatives).
  replace (num_sample_points <=? size (older_times ++ times)) with true
    by (symmetry; apply Z.leb_le; rewrite size_app; lia).
  replace (num_sample_points <=? size (older_samples ++ samples)) with true
    by (symmetry; apply Z.leb_le; rewrite size_app; lia).
  replace (num_sample_points <=? size (older_derivatives ++ derivatives))
    with true by (symmetry; apply Z.leb_le; rewrite size_app; lia).
  replace (num_sample_points <=? size times) with true
    by (symmetry; apply Z.leb_le; lia).
  replace (num_sample_points <=? size samples) with true
    by (symmetry; apply Z.leb_le; lia).
  replace (num_sample_points <=? size derivatives) with true
    by (symmetry; apply Z.leb_le; lia).
  do 4 (apply bind_ext; [reflexivity | intros ? ?]).
  apply bind_ext; [| reflexivity].
  unfold for_each. apply foldM_ext. intros ii Hii u fr.
  apply In_upto in Hii.
  apply bind_ext; [apply at_older; lia | intros ? ?].
  apply bind_ext; [reflexivity | intros ? ?].
  apply bind_ext; [apply at_older; lia | intros ? ?].
  apply bind_ext; [reflexivity | intros ? ?].
  apply bind_ext; [apply at_older; lia | intros ? ?].
  apply bind_ext; [reflexivity | intros ? ?].
  apply bind_ext; [apply at_older; lia | intros ? ?].
  apply bind_ext; [reflexivity | intros ? ?].
  apply bind_ext; [apply at_older; lia | intros ? ?].
  reflexivity.
Qed.

End HistoryWindow.

(** ** The contents of the table *)

Section ColumnsProperties.

Context {CT : Type} {SC : Scalar CT}.

Add Field CT_field' : (@scalar_field CT SC).

Ltac zsolve := Z.div_mod_to_equations; lia.

Lemma latest_some {A : Type} (c : list A) (n k : Z) :
  n <= size c -> 0 <= k < n -> exists x, latest c k = Some x.
Proof.
  intros Hn Hk. unfold latest.
  destruct (nth_error c (Z.to_nat (size c - 1 - k))) as [x |] eqn:E.
  - exists x. reflexivity.
  - apply nth_error_None in E. unfold size in *. lia.
Qed.

Lemma downto_nil (hi lo : Z) : hi < lo -> downto hi lo = [].
Proof. intro H. unfold downto. rewrite upto_nil by lia. reflexivity. Qed.

Lemma upto_snoc (lo hi : Z) :
  lo <= hi -> upto lo (hi + 1) = upto lo hi ++ [hi].
Proof.
  intro H. unfold upto.
  replace (Z.to_nat (hi + 1 - lo)) with (Z.to_nat (hi - lo) + 1)%nat by lia.
  rewrite seq_app, map_app. cbn [seq map]. f_equal. f_equal. lia.
Qed.

Lemma downto_cons (hi lo : Z) :
  lo <= hi -> downto hi lo = hi :: downto (hi - 1) lo.
Proof.
  intro H. unfold downto. rewrite upto_snoc by lia.
  rewrite rev_app_distr. cbn [rev app].
  replace (hi - 1 + 1) with hi by lia. reflexivity.
Qed.

(** A descending loop that carries a variable. *)
Lemma triple_downto {A : Type} (I : Z -> A -> Frame CT -> Prop)
    (hi lo : Z) (body : Z -> A -> M CT A) :
  lo <= hi + 1 ->
  (forall i a, lo <= i <= hi ->
     triple (I (i + 1) a) (body i a) (fun a' => I i a')) ->
  forall a, triple (I (hi + 1) a) (foldM (downto hi lo) a body)
                   (fun a' => I lo a').
Proof.
  intro Hle. remember (Z.to_nat (hi + 1 - lo)) as d eqn:Ed.
  generalize dependent hi.
  induction d as [| d IH]; intros hi Hle Ed Hbody a.
  - assert (hi + 1 = lo) by lia. rewrite downto_nil by lia.
    apply triple_ret. intros s Hs. rewrite <- H. exact Hs.
  - rewrite downto_cons by lia. cbn [foldM].
    eapply triple_bind.
    + apply Hbody. lia.
    + intro a'.
      eapply triple_weaken; [| | apply (IH (hi - 1)); [lia | lia |]].
      * intros s Hs. replace (hi - 1 + 1) with hi by lia. exact Hs.
      * intros b s Hs. exact Hs.
      * intros i b Hi. apply Hbody. lia.
Qed.

Section Table.

Variable n : Z.
Variable times : list CT.
Variable Phi : Z -> Z -> Vec CT -> Prop.

Hypothesis window : 1 <= n < 2 ^ 31.
Hypothesis enough_times : n <= size times < 2 ^ 64.

Lemma columns_weaken (k : Z) (W W' : Z -> Z -> Prop) (s : Frame CT) :
  (forall i j, W' i j -> W i j) ->
  columns (2 * n) times Phi k W s -> columns (2 * n) times Phi k W' s.
Proof.
  intros Hsub [Hshape [Hseed Hphi]].
  split; [exact Hshape | split; [exact Hseed |]].
  intros i j Hij. apply Hphi, Hsub, Hij.
Qed.

Lemma columns_set_sd (k : Z) (W : Z -> Z -> Prop) (i j : Z) (v : Vec CT) :
  0 <= i < 2 * n -> 0 <= j < 2 * n -> Phi i j v ->
  triple (columns (2 * n) times Phi k W) (set_sd i j v)
         (fun _ => columns (2 * n) times Phi k (add_entry W i j)).
Proof.
  intros Hi Hj Hv s [Hshape [Hseed Hphi]]. unfold set_sd.
  rewrite (in_matrix_shaped (2 * n) s i j Hshape Hi Hj).
  eexists tt, _. split; [reflexivity |].
  destruct Hshape as [Hr [Hc Ht]].
  split; [| split].
  - repeat split; assumption.
  - exact Hseed.
  - intros i' j' Hin. cbn [space_differences coeff].
    destruct (Z.eqb_spec i' i) as [Ei | Ei];
      destruct (Z.eqb_spec j' j) as [Ej | Ej]; cbn [andb];
      try (subst; exact Hv);
      (destruct Hin as [Hin | [Hi' Hj']]; [apply Hphi, Hin | contradiction]).
Qed.

Lemma columns_get_sd (k : Z) (W : Z -> Z -> Prop) (i j : Z) :
  0 <= i < 2 * n -> 0 <= j < 2 * n -> W i j ->
  triple (columns (2 * n) times Phi k W) (get_sd i j)
         (fun v s => columns (2 * n) times Phi k W s /\ Phi i j v).
Proof.
  intros Hi Hj Hin s Hs. pose proof Hs as [Hshape [Hseed Hphi]].
  unfold get_sd. rewrite (in_matrix_shaped (2 * n) s i j Hshape Hi Hj).
  eexists _, s. split; [reflexivity |]. split; [exact Hs |].
  apply Hphi, Hin.
Qed.

Lemma columns_set_td (k : Z) (W : Z -> Z -> Prop) (x : CT) :
  0 <= k < 2 * n -> recent times (k / 2) = Some x ->
  triple (columns (2 * n) times Phi k W) (set_td k x)
         (fun _ => columns (2 * n) times Phi (k + 1) W).
Proof.
  intros Hk Hx s [[Hr [Hc Ht]] [Hseed Hphi]]. unfold set_td.
  replace ((0 <=? k) && (k <? size (time_differences s))) with true
    by (symmetry; apply andb_true_iff; split; lia).
  eexists tt, _. split; [reflexivity |].
  split; [| split; [| exact Hphi]].
  - unfold shaped, size in *.
    cbn [space_differences time_differences].
    rewrite length_update. auto.
  - intros j Hj. cbn [time_differences].
    rewrite nth_error_update by (unfold size in Ht; lia).
    destruct (Nat.eqb_spec (Z.to_nat j) (Z.to_nat k)) as [E | E].
    + assert (j = k) by lia. subst j. symmetry. exact Hx.
    + apply Hseed. lia.
Qed.

Lemma columns_get_td (W : Z -> Z -> Prop) (i : Z) :
  0 <= i < 2 * n ->
  triple (columns (2 * n) times Phi (2 * n) W) (get_td i)
         (fun x s => columns (2 * n) times Phi (2 * n) W s
                     /\ recent times (i / 2) = Some x).
Proof.
  intros Hi s Hs. pose proof Hs as [[Hr [Hc Ht]] [Hseed Hphi]].
  unfold get_td.
  replace ((0 <=? i) && (i <? size (time_differences s))) with true
    by (symmetry; apply andb_true_iff; split; lia).
  rewrite (Hseed i Hi).
  destruct (latest_some times n (i / 2)) as [x Hx].
  { lia. }
  { Z.div_mod_to_equations. lia. }
  change (latest times (i / 2)) with (recent times (i / 2)) in Hx.
  rewrite Hx. exists x, s. auto.
Qed.

Lemma columns_quot (k : Z) (W : Z -> Z -> Prop) (v : Vec CT) (c : CT) :
  triple (columns (2 * n) times Phi k W) (quot v c)
         (fun q s => columns (2 * n) times Phi k W s /\ q = vquot v c).
Proof.
  intros s Hs. unfold quot. eexists _, _. split; [reflexivity |].
  split; [exact Hs | reflexivity].
Qed.

Lemma columns_declare :
  triple (fun s => s = initial_frame) (declare (2 * n))
         (fun _ => columns (2 * n) times Phi (2 * 0)
                     (seeded_entries 0)).
Proof.
  intros s ->. unfold declare. eexists tt, _. split; [reflexivity |].
  split; [| split].
  - unfold shaped, size.
    cbn [space_differences time_differences rows cols].
    rewrite repeat_length. repeat split; lia.
  - intros j Hj. lia.
  - intros i j [Hi _]. lia.
Qed.

Section Values.

Variable target_time : CT.
Variables samples derivatives : list (Vec CT).
Variable Psi : Z -> Vec CT -> Prop.

Hypothesis enough_samples : n <= size samples < 2 ^ 64.
Hypothesis enough_derivatives : n <= size derivatives < 2 ^ 64.

(** What the seeds satisfy, and what a quotient of two entries and a
    round of the nested evaluation inherit. *)
Hypothesis Phi_seed : forall ii p d,
  0 <= ii < n -> latest samples ii = Some p ->
  latest derivatives ii = Some d ->
  Phi (2 * ii) 0 p /\ Phi (2 * ii + 1) 0 p /\ Phi (2 * ii + 1) 1 d.

Hypothesis Phi_quot : forall i j a b ta tb,
  1 <= j <= i -> i < 2 * n -> (j = 1 -> i mod 2 = 0) ->
  recent times (i / 2) = Some ta ->
  recent times ((i - j) / 2) = Some tb ->
  Phi i (j - 1) a -> Phi (i - 1) (j - 1) b ->
  Phi i j (vquot (vsub a b) (csub ta tb)).

Hypothesis Psi_start : forall v,
  Phi (2 * n - 1) (2 * n - 1) v -> Psi (n - 1 + 1) v.

Hypothesis Psi_step : forall ii Result d_hi d_lo t_hi t_lo,
  1 <= ii < n -> Psi (ii + 1) Result ->
  recent times (ii / 2) = Some t_hi ->
  recent times ((ii - 1) / 2) = Some t_lo ->
  Phi (2 * ii) (2 * ii) d_hi -> Phi (2 * ii - 1) (2 * ii - 1) d_lo ->
  Psi ii (vadd (vscale (vadd (vscale Result (csub target_time t_hi)) d_hi)
                       (csub target_time t_lo))
               d_lo).

Ltac entries :=
  unfold filled_entries, first_entries, seeded_entries, add_entry in *;
  zsolve.
Ltac unwrap := rewrite ?usize_small, ?u32_small by lia.
Ltac run rule := eapply triple_bind; [ rule | intros ? ].
Ltac fact H := cbv beta; apply triple_pure; intros H.

Lemma body_columns :
  triple (fun s => s = initial_frame)
         (HermiteInterpolateAndSolve_body target_time n times samples
            derivatives)
         (fun v _ =>
            exists Result d_first t_first,
              Psi 1 Result /\ Phi 0 0 d_first
              /\ recent times 0 = Some t_first
              /\ v = vadd (vscale Result (csub target_time t_first))
                          d_first).
Proof.
  unfold HermiteInterpolateAndSolve_body.
  rewrite !(u32_small (2 * n)), !(u32_small (2 * n - 1)),
    !(u32_small (n - 1)) by lia.
  run ltac:(apply triple_assert; apply Z.leb_le; lia).
  run ltac:(apply triple_assert; apply Z.leb_le; lia).
  run ltac:(apply triple_assert; apply Z.leb_le; lia).
  run ltac:(apply columns_declare).
  (* seeding *)
  eapply triple_bind.
  { apply (triple_upto
             (fun i => columns (2 * n) times Phi (2 * i) (seeded_entries i))
             0 n); [lia |].
    intros ii Hii. unwrap.
    destruct (latest_some samples n ii) as [p Hp]; [lia | lia |].
    destruct (latest_some derivatives n ii) as [d Hd]; [lia | lia |].
    destruct (Phi_seed ii p d Hii Hp Hd) as [Hp0 [Hp1 Hd1]].
    unfold latest in Hp, Hd.
    run ltac:(apply triple_at; lia). fact Hs0.
    rewrite Hp in Hs0. injection Hs0 as <-.
    run ltac:(apply columns_set_sd; [lia | lia | exact Hp0]).
    run ltac:(apply triple_at; lia). fact Hs1.
    rewrite Hp in Hs1. injection Hs1 as <-.
    run ltac:(apply columns_set_sd; [lia | lia | exact Hp1]).
    run ltac:(apply triple_at; lia). fact Hd1'.
    rewrite Hd in Hd1'. injection Hd1' as <-.
    run ltac:(apply columns_set_sd; [lia | lia | exact Hd1]).
    run ltac:(apply triple_at; lia). fact Ht0.
    run ltac:(apply columns_set_td;
              [lia | replace (2 * ii / 2) with ii by zsolve; exact Ht0]).
    run ltac:(apply triple_at; lia). fact Ht1.
    eapply triple_weaken; [| | apply columns_set_td].
    - intros s Hs. exact Hs.
    - intros [] s Hs. cbv beta in Hs.
      replace (2 * (ii + 1)) with (2 * ii + 1 + 1) by lia.
      revert Hs. apply columns_weaken.
      intros i j Hij. entries.
    - lia.
    - replace ((2 * ii + 1) / 2) with ii by zsolve. exact Ht1. }
  intros ?; cbv beta.
  (* first differences *)
  eapply triple_bind.
  { eapply triple_weaken;
      [| | apply (triple_upto
                    (fun i => columns (2 * n) times Phi (2 * n)
                                (first_entries n i)) 1 n)].
    - intros s. apply columns_weaken.
      intros i j Hij. entries.
    - intros ? s Hs. exact Hs.
    - lia.
    - intros ii Hii. unwrap.
      run ltac:(apply columns_get_sd;
                [lia | lia | entries]).
      fact Ha.
      run ltac:(apply columns_get_sd;
                [lia | lia | entries]).
      fact Hb.
      run ltac:(apply columns_get_td; lia). fact Hta.
      run ltac:(apply columns_get_td; lia). fact Htb.
      run ltac:(apply columns_quot). fact Hq. subst.
      eapply triple_weaken; [| | apply columns_set_sd].
      + intros s Hs. exact Hs.
      + intros [] s Hs. cbv beta in Hs. revert Hs. apply columns_weaken.
        intros i j Hij. entries.
      + lia.
      + lia.
      + apply Phi_quot; try assumption; try lia; intros; zsolve. }
  intros ?; cbv beta.
  (* the remaining columns *)
  eapply triple_bind.
  { eapply triple_weaken;
      [| | apply (triple_upto
                    (fun i => columns (2 * n) times Phi (2 * n)
                                (filled_entries n i 2)) 2 (2 * n))].
    - intros s. apply columns_weaken.
      intros i j Hij. entries.
    - intros ? s Hs. exact Hs.
    - lia.
    - intros ii Hii.
      eapply triple_weaken;
        [| | apply (triple_upto
                      (fun m => columns (2 * n) times Phi (2 * n)
                                  (filled_entries n ii m)) 2 (ii + 1))].
      + intros s Hs. exact Hs.
      + intros ? s. apply columns_weaken.
        intros i j Hij. entries.
      + lia.
      + intros jj Hjj. unwrap.
        run ltac:(apply columns_get_sd;
                  [lia | lia
                   | entries]).
        fact Ha.
        run ltac:(apply columns_get_sd;
                  [lia | lia
                   | entries]).
        fact Hb.
        run ltac:(apply columns_get_td; lia). fact Hta.
        run ltac:(apply columns_get_td; lia). fact Htb.
        run ltac:(apply columns_quot). fact Hq. subst.
        eapply triple_weaken; [| | apply columns_set_sd].
        * intros s Hs. exact Hs.
        * intros [] s Hs. cbv beta in Hs. revert Hs. apply columns_weaken.
          intros i j Hij. entries.
        * lia.
        * lia.
        * apply Phi_quot; try assumption; lia. }
  intros ?; cbv beta.
  (* the nested evaluation *)
  run ltac:(apply columns_get_sd;
            [lia | lia
             | entries]).
  fact Hstart. apply Psi_start in Hstart.
  eapply triple_bind.
  { eapply triple_weaken;
      [| | apply (triple_downto
                    (fun k Result s =>
                       columns (2 * n) times Phi (2 * n)
                         (filled_entries n (2 * n) 2) s
                       /\ Psi k Result) (n - 1) 1)].
    - intros s Hs. split; [exact Hs | exact Hstart].
    - intros Result s Hs. exact Hs.
    - lia.
    - intros ii Result Hii. apply triple_pure. intro HPsi. unwrap.
      run ltac:(apply columns_get_td; lia). fact Hhi.
      run ltac:(apply columns_get_sd;
                [lia | lia | entries]).
      fact Hdhi.
      run ltac:(apply columns_get_td; lia). fact Hlo.
      run ltac:(apply columns_get_sd;
                [lia | lia
                 | entries]).
      fact Hdlo.
      apply triple_ret. intros s Hs. split; [exact Hs |].
      apply Psi_step; try assumption. lia. }
  intros Result. fact HPsi.
  run ltac:(apply columns_get_td; lia). fact Ht0.
  run ltac:(apply columns_get_sd;
            [lia | lia
             | entries]).
  fact Hd0.
  apply triple_ret. intros s Hs.
  eexists _, _, _. repeat split; eassumption.
Qed.

(** The value of a call over distinct times. *)
Lemma run_value :
  ~ repeated_time times n ->
  exists Result d_first t_first,
    Psi 1 Result /\ Phi 0 0 d_first
    /\ recent times 0 = Some t_first
    /\ HermiteInterpolateAndSolve target_time n times samples derivatives
       = Ok (vadd (vscale Result (csub target_time t_first)) d_first).
Proof.
  intro Hdistinct.
  destruct (body_columns initial_frame eq_refl)
    as [v [s [Hrun [Result [d_first [t_first [HPsi [HPhi [Ht Hv]]]]]]]]].
  exists Result, d_first, t_first.
  repeat split; try assumption.
  destruct (run_outcome target_time n times samples derivatives window
              enough_times enough_samples enough_derivatives)
    as [[Hrep _] | [_ [v' Hv']]]; [contradiction |].
  rewrite Hv'. unfold HermiteInterpolateAndSolve in Hv'.
  rewrite Hrun in Hv'. destruct (zero_divisor s); [discriminate Hv' |].
  injection Hv' as <-. rewrite Hv. reflexivity.
Qed.

End Values.

End Table.

(** *** Vectors of one dimension *)

Lemma length_coefficientwise (f : CT -> CT -> CT) (u v : Vec CT) :
  List.length u = List.length v ->
  List.length (coefficientwise f u v) = List.length u.
Proof.
  revert v. induction u as [| x u IH]; intros [| y v] H;
    simpl in *; try reflexivity; try discriminate.
  f_equal. apply IH. lia.
Qed.

Lemma length_vquot_vsub (a b : Vec CT) (c : CT) (d : nat) :
  List.length a = d -> List.length b = d ->
  List.length (vquot (vsub a b) c) = d.
Proof.
  intros Ha Hb. unfold vquot, vsub.
  rewrite length_map, length_coefficientwise; congruence.
Qed.

Lemma length_vadd_vscale (u v : Vec CT) (c : CT) (d : nat) :
  List.length u = d -> List.length v = d ->
  List.length (vadd (vscale u c) v) = d.
Proof.
  intros Hu Hv. unfold vadd, vscale.
  rewrite length_coefficientwise; rewrite length_map; congruence.
Qed.

Lemma vadd_vscale_zero (u v : Vec CT) (t : CT) :
  List.length u = List.length v -> vadd (vscale u (csub t t)) v = v.
Proof.
  unfold vadd, vscale. revert v.
  induction u as [| x u IH]; intros [| y v] H;
    simpl in *; try reflexivity; try discriminate.
  f_equal; [ring | apply IH; lia].
Qed.

Lemma latest_In {A : Type} (c : list A) (k : Z) (x : A) :
  latest c k = Some x -> In x c.
Proof. unfold latest. apply nth_error_In. Qed.

Lemma latest_last {A : Type} (c : list A) (x : A) :
  latest (c ++ [x]) 0 = Some x.
Proof.
  unfold latest. rewrite size_app. change (size [x]) with 1.
  replace (size c + 1 - 1 - 0) with (size c) by lia.
  apply nth_error_last.
Qed.

(** X7: over distinct times, from samples and derivatives of one
    dimension, the call returns a vector of that dimension. *)
Theorem HermiteInterpolateAndSolve_dimension (dimension : nat)
    (target_time : CT) (num_sample_points : Z) (times : list CT)
    (samples derivatives : list (Vec CT)) :
  1 <= num_sample_points < 2 ^ 31 ->
  num_sample_points <= size times < 2 ^ 64 ->
  num_sample_points <= size samples < 2 ^ 64 ->
  num_sample_points <= size derivatives < 2 ^ 64 ->
  Forall (fun v => List.length v = dimension) samples ->
  Forall (fun v => List.length v = dimension) derivatives ->
  ~ repeated_time times num_sample_points ->
  exists v,
    HermiteInterpolateAndSolve target_time num_sample_points times samples
      derivatives = Ok v
    /\ List.length v = dimension.
Proof.
  intros Hn Ht Hs Hd Hsamples Hderivatives Hdistinct.
  rewrite Forall_forall in Hsamples, Hderivatives.
  destruct (run_value num_sample_points times
              (fun _ _ v => List.length v = dimension) Hn Ht
              target_time samples derivatives
              (fun _ v => List.length v = dimension) Hs Hd)
    as [Result [d_first [t_first [HR [Hfirst [_ Hrun]]]]]];
    try assumption.
  - intros ii p d _ Hp Hd'. apply latest_In in Hp. apply latest_In in Hd'.
    auto.
  - intros. apply length_vquot_vsub; assumption.
  - auto.
  - intros. apply length_vadd_vscale; [| assumption].
    apply length_vadd_vscale; assumption.
  - eexists. split; [exact Hrun |].
    apply length_vadd_vscale; assumption.
Qed.

(** X8: over distinct times, from samples and derivatives of one
    dimension, the value at the time of the latest sample is the latest
    sample. *)
Theorem HermiteInterpolateAndSolve_at_latest_time (dimension : nat)
    (num_sample_points : Z) (earlier_times : list CT) (t0 : CT)
    (earlier_samples : list (Vec CT)) (p : Vec CT)
    (derivatives : list (Vec CT)) :
  1 <= num_sample_points < 2 ^ 31 ->
  num_sample_points <= size (earlier_times ++ [t0]) < 2 ^ 64 ->
  num_sample_points <= size (earlier_samples ++ [p]) < 2 ^ 64 ->
  num_sample_points <= size derivatives < 2 ^ 64 ->
  Forall (fun v => List.length v = dimension) (earlier_samples ++ [p]) ->
  Forall (fun v => List.length v = dimension) derivatives ->
  ~ repeated_time (earlier_times ++ [t0]) num_sample_points ->
  HermiteInterpolateAndSolve t0 num_sample_points (earlier_times ++ [t0])
    (earlier_samples ++ [p]) derivatives
  = Ok p.
Proof.
  intros Hn Ht Hs Hd Hsamples Hderivatives Hdistinct.
  rewrite Forall_forall in Hsamples, Hderivatives.
  destruct (run_value num_sample_points (earlier_times ++ [t0])
              (fun i j v => List.length v = dimension
                            /\ (i = 0 -> j = 0 -> v = p)) Hn Ht
              t0 (earlier_samples ++ [p]) derivatives
              (fun _ v => List.length v = dimension) Hs Hd)
    as [Result [d_first [t_first [HR [[Hlen Hfirst] [Hlatest Hrun]]]]]];
    try assumption.
  - intros ii q d Hii Hq Hd'.
    pose proof (latest_In _ _ _ Hq) as Hq'.
    pose proof (latest_In _ _ _ Hd') as Hd''.
    repeat split; auto; try lia.
    intros Hi _. assert (ii = 0) by lia. subst ii.
    rewrite latest_last in Hq. congruence.
  - intros i j a b ta tb Hj Hi _ _ _ [Ha _] [Hb _]. split.
    + apply length_vquot_vsub; assumption.
    + lia.
  - intros v [H _]. exact H.
  - intros ii Result d_hi d_lo t_hi t_lo _ HR _ _ [Hhi _] [Hlo _].
    apply length_vadd_vscale; [| assumption].
    apply length_vadd_vscale; assumption.
  - rewrite Hrun.
    change (recent (earlier_times ++ [t0]) 0)
      with (latest (earlier_times ++ [t0]) 0) in Hlatest.
    rewrite latest_last in Hlatest. injection Hlatest as <-.
    rewrite (Hfirst eq_refl eq_refl).
    rewrite vadd_vscale_zero; [reflexivity |].
    rewrite HR. symmetry. apply Hsamples.
    apply in_or_app. right. left. reflexivity.
Qed.

(** *** Paths of degree two *)

Lemma coefficientwise_map {X : Type} (f : CT -> CT -> CT) (g h : X -> CT)
    (l : list X) :
  coefficientwise f (map g l) (map h l) = map (fun x => f (g x) (h x)) l.
Proof. induction l as [| x l IH]; simpl; [| rewrite IH]; reflexivity. Qed.

Lemma vquot_vsub_map {X : Type} (g h : X -> CT) (l : list X) (c : CT) :
  vquot (vsub (map g l) (map h l)) c
  = map (fun x => cdiv (csub (g x) (h x)) c) l.
Proof.
  unfold vquot, vsub. rewrite coefficientwise_map, map_map. reflexivity.
Qed.

Lemma vadd_vscale_map {X : Type} (g h : X -> CT) (l : list X) (c : CT) :
  vadd (vscale (map g l) c) (map h l)
  = map (fun x => cadd (cmul (g x) c) (h x)) l.
Proof.
  unfold vadd, vscale. rewrite map_map, coefficientwise_map. reflexivity.
Qed.

Lemma latest_map {A B : Type} (f : A -> B) (c : list A) (k : Z) :
  latest (map f c) k = option_map f (latest c k).
Proof.
  unfold latest, size. rewrite length_map. apply nth_error_map.
Qed.

Lemma distinct_times (times : list CT) (n p q : Z) (x y : CT) :
  ~ repeated_time times n -> 0 <= p < q -> q < n ->
  recent times p = Some x -> recent times q = Some y ->
  csub y x <> czero.
Proof.
  intros Hdistinct Hp Hq Hx Hy E.
  destruct (csub_zero_iff y x) as [Heq _]. apply Heq in E. subst y.
  apply Hdistinct. exists p, q. repeat split; try lia. congruence.
Qed.

Lemma cdiv_zero (x y : CT) : cdiv (csub x x) y = czero.
Proof. rewrite (Fdiv_def scalar_field). ring. Qed.

(** X9: a path whose coordinates are polynomials of degree at most two,
    sampled exactly at distinct times, is reproduced exactly at every
    target time by every window of at least two samples. *)
Theorem HermiteInterpolateAndSolve_quadratic (path : list (CT * CT * CT))
    (target_time : CT) (num_sample_points : Z) (times : list CT) :
  2 <= num_sample_points < 2 ^ 31 ->
  num_sample_points <= size times < 2 ^ 64 ->
  ~ repeated_time times num_sample_points ->
  HermiteInterpolateAndSolve target_time num_sample_points times
    (map (position path) times) (map (velocity path) times)
  = Ok (position path target_time).
Proof.
  intros Hn Ht Hdistinct.
  assert (Hs : forall A (f : CT -> A),
             num_sample_points <= size (map f times) < 2 ^ 64)
    by (intros A f; unfold size in *; rewrite length_map; exact Ht).
  destruct (run_value num_sample_points times
              (quadratic_entry times path) ltac:(lia) Ht
              target_time (map (position path) times)
              (map (velocity path) times)
              (quadratic_carry times path target_time)
              (Hs _ _) (Hs _ _))
    as [Result [d_first [t_first [HR [Hfirst [Hlatest Hrun]]]]]];
    try assumption.
  - (* the seeds *)
    intros ii p d Hii Hp Hd. rewrite latest_map in Hp, Hd.
    change (latest times ii) with (recent times ii) in Hp, Hd.
    destruct (recent times ii) as [t |] eqn:Et; [| discriminate Hp].
    injection Hp as <-. injection Hd as <-.
    unfold quadratic_entry. cbn [Z.eqb].
    replace (2 * ii / 2) with ii by zsolve.
    replace ((2 * ii + 1) / 2) with ii by zsolve.
    replace ((2 * ii + 1 - 1) / 2) with ii by zsolve.
    split; [| split].
    + exists t. auto.
    + exists t. auto.
    + exists t, t. repeat split; try assumption.
      unfold velocity. apply map_ext. intros [[a b] c]. ring.
  - (* the quotients *)
    intros i j u v ta tb Hj Hi Heven Hta Htb Hu Hv.
    assert (Hne : csub ta tb <> czero).
    { apply (distinct_times times num_sample_points
               ((i - j) / 2) (i / 2)); try assumption.
      - assert (j = 1 -> i mod 2 = 0) by exact Heven. zsolve.
      - zsolve. }
    unfold quadratic_entry in *.
    destruct (Z.eqb_spec j 1) as [E1 | E1].
    { subst j. cbn [Z.eqb Z.sub Z.add Z.opp Z.pos_sub] in *.
      destruct Hu as [t [Et ->]]. destruct Hv as [t' [Et' ->]].
      rewrite Hta in Et. injection Et as <-.
      replace ((i - 1) / 2) with ((i - 1 - 1 + 1) / 2) in Htb
        by (f_equal; lia).
      replace ((i - 1 - 1 + 1) / 2) with ((i - 1) / 2) in Htb
        by (f_equal; lia).
      rewrite Htb in Et'. injection Et' as <-.
      exists ta, tb. repeat split; try assumption.
      unfold position. rewrite vquot_vsub_map.
      apply map_ext. intros [[a b] c]. field. exact Hne. }
    destruct (Z.eqb_spec j 2) as [E2 | E2].
    { subst j. cbn [Z.eqb Z.sub Z.add Z.opp Z.pos_sub] in *.
      destruct Hu as [t [t' [Et [Et' ->]]]].
      destruct Hv as [u [u' [Eu [Eu' ->]]]].
      rewrite Hta in Et. injection Et as <-.
      rewrite Et' in Eu. injection Eu as <-.
      replace ((i - 1 - 1) / 2) with ((i - 2) / 2) in Eu'
        by (f_equal; lia).
      rewrite Htb in Eu'. injection Eu' as <-.
      rewrite vquot_vsub_map.
      apply map_ext. intros [[a b] c]. field. exact Hne. }
    destruct (Z.eqb_spec j 0) as [E0 | E0]; [lia |].
    destruct (Z.eqb_spec (j - 1) 0) as [E10 | E10]; [lia |].
    destruct (Z.eqb_spec (j - 1) 1) as [E11 | E11]; [lia |].
    destruct (Z.eqb_spec (j - 1) 2) as [E12 | E12].
    + rewrite Hu, Hv, vquot_vsub_map.
      apply map_ext. intros [[a b] c]. apply cdiv_zero.
    + rewrite Hu, Hv, vquot_vsub_map.
      apply map_ext. intros _. apply cdiv_zero.
  - (* the first carry *)
    intros v Hv. unfold quadratic_entry, quadratic_carry in *.
    destruct (Z.eqb_spec (2 * num_sample_points - 1) 0); [lia |].
    destruct (Z.eqb_spec (2 * num_sample_points - 1) 1); [lia |].
    destruct (Z.eqb_spec (2 * num_sample_points - 1) 2); [lia |].
    destruct (Z.eqb_spec (num_sample_points - 1 + 1) 1); [lia |].
    exact Hv.
  - (* a round of the nested evaluation *)
    intros ii Result d_hi d_lo t_hi t_lo Hii HR Hhi Hlo Hdhi Hdlo.
    unfold quadratic_entry, quadratic_carry in *.
    destruct (Z.eqb_spec (ii + 1) 1); [lia |].
    destruct (Z.eqb_spec (2 * ii) 0); [lia |].
    destruct (Z.eqb_spec (2 * ii) 1); [lia |].
    destruct (Z.eqb_spec (2 * ii - 1) 0); [lia |].
    subst Result.
    destruct (Z.eqb_spec ii 1) as [E | E].
    + destruct (Z.eqb_spec (2 * ii) 2); [| lia].
      destruct (Z.eqb_spec (2 * ii - 1) 1); [| lia].
      subst ii.
      change (1 / 2) with 0 in *. change ((1 - 1) / 2) with 0 in *.
      change ((2 * 1 - 1) / 2) with 0 in *.
      change ((2 * 1 - 1 - 1) / 2) with 0 in *.
      destruct Hdlo as [t [t' [Et [Et' ->]]]]. subst d_hi.
      rewrite Hhi in Et. injection Et as <-.
      rewrite Hhi in Et'. injection Et' as <-.
      rewrite Hhi in Hlo. injection Hlo as <-.
      exists t_hi. split; [assumption |].
      rewrite !vadd_vscale_map.
      apply map_ext. intros [[a b] c]. ring.
    + destruct (Z.eqb_spec (2 * ii) 2); [lia |].
      destruct (Z.eqb_spec (2 * ii - 1) 1); [lia |].
      destruct (Z.eqb_spec (2 * ii - 1) 2); [lia |].
      subst d_hi d_lo. rewrite !vadd_vscale_map.
      apply map_ext. intros _. ring.
  - (* the last term *)
    rewrite Hrun. f_equal.
    unfold quadratic_entry, quadratic_carry in *.
    cbn [Z.eqb] in *. change (0 / 2) with 0 in *.
    destruct HR as [t0 [Et0 ->]]. destruct Hfirst as [t [Et ->]].
    rewrite Hlatest in Et0, Et.
    injection Et0 as <-. injection Et as <-.
    unfold position. rewrite vadd_vscale_map.
    apply map_ext. intros [[a b] c]. ring.
Qed.

End ColumnsProperties.

(** ** Windows that do not fit an [unsigned int] table *)

Section WideWindow.

Context {CT : Type} {SC : Scalar CT}.

Lemma upto_app (lo mid hi : Z) :
  lo <= mid <= hi -> upto lo hi = upto lo mid ++ upto mid hi.
Proof.
  intros [Hlo Hhi]. remember (Z.to_nat (mid - lo)) as d eqn:Ed.
  generalize dependent lo.
  induction d as [| d IH]; intros lo Hlo Ed.
  - assert (lo = mid) by lia. subst lo. rewrite (upto_nil mid mid) by lia.
    reflexivity.
  - rewrite (upto_cons lo hi), (upto_cons lo mid) by lia.
    cbn [app]. f_equal. apply IH; lia.
Qed.

Lemma foldM_app {A : Type} (l l' : list Z) (a : A) (body : Z -> A -> M CT A)
    (s : Frame CT) :
  foldM (l ++ l') a body s
  = bind (foldM l a body) (fun a' => foldM l' a' body) s.
Proof.
  revert a s. induction l as [| i l IH]; intros a s; cbn [app foldM].
  - reflexivity.
  - unfold bind. destruct (body i a s) as [[a' s'] | e]; [| reflexivity].
    rewrite IH. reflexivity.
Qed.

Lemma shaped_set_sd (r i j : Z) (v : Vec CT) :
  0 <= i < r -> 0 <= j < r ->
  triple (shaped r) (set_sd i j v) (fun _ => shaped r).
Proof.
  intros Hi Hj. apply (triple_set_sd (shaped r) r); auto.
  intros s F [Hr [Hc Ht]] HrF HcF. repeat split; cbn; congruence.
Qed.

Lemma shaped_set_td (r i : Z) (x : CT) :
  0 <= i < r -> triple (shaped r) (set_td i x) (fun _ => shaped r).
Proof.
  intros Hi s [Hr [Hc Ht]]. unfold set_td.
  replace ((0 <=? i) && (i <? size (time_differences s))) with true
    by (symmetry; apply andb_true_iff; split; lia).
  eexists tt, _. split; [reflexivity |].
  repeat split; cbn [space_differences time_differences]; try assumption.
  unfold size in *. rewrite length_update. exact Ht.
Qed.

(** X6: for [2^31 <= num_sample_points < 2^32] the table size
    [2 * num_sample_points] wraps, and the call goes out of bounds in the
    seeding loop although every container holds the window. *)
Theorem HermiteInterpolateAndSolve_window_too_wide (target_time : CT)
    (num_sample_points : Z) (times : list CT)
    (samples derivatives : list (Vec CT)) :
  2 ^ 31 <= num_sample_points < 2 ^ 32 ->
  num_sample_points <= size times < 2 ^ 64 ->
  num_sample_points <= size samples < 2 ^ 64 ->
  num_sample_points <= size derivatives < 2 ^ 64 ->
  HermiteInterpolateAndSolve target_time num_sample_points times samples
    derivatives
  = Err IndexOutOfBounds.
Proof.
  intros Hn Ht Hs Hd.
  set (m := num_sample_points - 2 ^ 31).
  assert (Hm : 0 <= m < 2 ^ 31) by (unfold m; lia).
  unfold HermiteInterpolateAndSolve, HermiteInterpolateAndSolve_body.
  replace (num_sample_points <=? size times) with true
    by (symmetry; apply Z.leb_le; lia).
  replace (num_sample_points <=? size samples) with true
    by (symmetry; apply Z.leb_le; lia).
  replace (num_sample_points <=? size derivatives) with true
    by (symmetry; apply Z.leb_le; lia).
  replace (u32 (2 * num_sample_points)) with (2 * m)
    by (unfold u32, m; apply Z.mod_unique with 1; lia).
  unfold bind at 1. unfold assert at 1.
  unfold bind at 1. unfold assert at 1.
  unfold bind at 1. unfold assert at 1.
  unfold bind at 1. unfold declare at 1.
  match goal with
  | |- context [bind (for_each ?idx ?body) ?k ?s] =>
      assert (Hseed : for_each idx body s = Err IndexOutOfBounds);
      [| unfold bind at 1; rewrite Hseed; reflexivity]
  end.
  rewrite (upto_app 0 m num_sample_points) by lia.
  unfold for_each. rewrite foldM_app.
  match goal with
  | |- bind (foldM (upto 0 m) tt ?body) _ ?s0 = _ =>
      assert (Hloop : triple (shaped (2 * m))
                        (for_each (upto 0 m) (fun ii => body ii tt))
                        (fun _ => shaped (2 * m)));
      [ apply (triple_upto (fun _ => shaped (2 * m)) 0 m); [lia |]
      | destruct (Hloop s0) as [[] [s' [Hrun Hshape]]] ]
  end.
  - intros ii Hii. rewrite ?usize_small, ?u32_small by lia.
    eapply triple_bind; [apply triple_at; lia | intros ?].
    cbv beta. apply triple_pure. intros _.
    eapply triple_bind; [apply shaped_set_sd; lia | intros ?].
    eapply triple_bind; [apply triple_at; lia | intros ?].
    cbv beta. apply triple_pure. intros _.
    eapply triple_bind; [apply shaped_set_sd; lia | intros ?].
    eapply triple_bind; [apply triple_at; lia | intros ?].
    cbv beta. apply triple_pure. intros _.
    eapply triple_bind; [apply shaped_set_sd; lia | intros ?].
    eapply triple_bind; [apply triple_at; lia | intros ?].
    cbv beta. apply triple_pure. intros _.
    eapply triple_bind; [apply shaped_set_td; lia | intros ?].
    eapply triple_bind; [apply triple_at; lia | intros ?].
    cbv beta. apply triple_pure. intros _.
    apply shaped_set_td. lia.
  - unfold shaped, size. cbn [space_differences time_differences rows cols].
    rewrite repeat_length. repeat split; lia.
  - unfold for_each in Hrun. unfold bind at 1. rewrite Hrun.
    rewrite (upto_cons m num_sample_points) by lia. cbn [foldM].
    unfold bind at 1.
    assert (Hidx : 0 <= usize (size samples - 1 - m) < size samples)
      by (rewrite usize_small by lia; lia).
    destruct (triple_at (shaped (2 * m)) samples
                (usize (size samples - 1 - m)) Hidx s' Hshape)
      as [p [s'' [Hat _]]].
    + unfold bind at 1. rewrite Hat.
      assert (Hs'' : s'' = s').
      { unfold at_ in Hat.
        destruct ((0 <=? usize (size samples - 1 - m))
                  && (usize (size samples - 1 - m) <? size samples));
          [| discriminate Hat].
        destruct (nth_error samples
                    (Z.to_nat (usize (size samples - 1 - m))));
          [| discriminate Hat].
        injection Hat as _ <-. reflexivity. }
      subst s''. unfold bind at 1. unfold set_sd at 1, in_matrix.
      destruct Hshape as [Hr [Hc _]]. rewrite Hr, Hc.
      rewrite (u32_small (2 * m)) by lia.
      replace (2 * m <? 2 * m) with false by (symmetry; apply Z.ltb_ge; lia).
      rewrite !andb_false_r. reflexivity.
Qed.

End WideWindow.

(** ** More runs in rational arithmetic *)

Lemma parabola_times_distinct : ~ repeated_time parabola_times 3.
Proof.
  destruct (run_outcome (rational 0 1) 3 parabola_times
              (sampled parabola parabola_times)
              (sampled parabola' parabola_times))
    as [[_ Herr] | [Hdistinct _]].
  - lia.
  - split; [vm_compute; discriminate | vm_compute; reflexivity].
  - split; [vm_compute; discriminate | vm_compute; reflexivity].
  - split; [vm_compute; discriminate | vm_compute; reflexivity].
  - apply (f_equal values) in Herr. vm_compute in Herr. discriminate Herr.
  - exact Hdistinct.
Qed.

Lemma size_long_history {A : Type} (x : A) : size (long_history x) = 2 ^ 31.
Proof.
  unfold size, long_history. rewrite repeat_length.
  apply Z2Nat.id. lia.
Qed.

(** X5 on the parabola, with one older sample before a window of two. *)
Lemma HermiteInterpolateAndSolve_older_history_witness :
  HermiteInterpolateAndSolve (rational 0 1) 2
    ([rational 1 10] ++ [rational 1 100; rational 1 1000])
    ([[parabola (rational 1 10)]]
     ++ sampled parabola [rational 1 100; rational 1 1000])
    ([[parabola' (rational 1 10)]]
     ++ sampled parabola' [rational 1 100; rational 1 1000])
  = HermiteInterpolateAndSolve (rational 0 1) 2
      [rational 1 100; rational 1 1000]
      (sampled parabola [rational 1 100; rational 1 1000])
      (sampled parabola' [rational 1 100; rational 1 1000]).
Proof.
  apply HermiteInterpolateAndSolve_older_history.
  - vm_compute. discriminate.
  - vm_compute. discriminate.
  - vm_compute. discriminate.
  - vm_compute. reflexivity.
  - vm_compute. reflexivity.
  - vm_compute. reflexivity.
Defined.

(** X6 at [2^31] samples. *)
Lemma HermiteInterpolateAndSolve_window_too_wide_witness :
  HermiteInterpolateAndSolve (rational 0 1) (2 ^ 31)
    (long_history (rational 0 1)) (long_history [rational 0 1])
    (long_history [rational 0 1])
  = Err IndexOutOfBounds.
Proof.
  apply HermiteInterpolateAndSolve_window_too_wide;
    rewrite ?size_long_history; lia.
Defined.

(** X7 on the three samples of the parabola. *)
Lemma HermiteInterpolateAndSolve_dimension_witness :
  exists v,
    HermiteInterpolateAndSolve (rational 0 1) 3 parabola_times
      (sampled parabola parabola_times) (sampled parabola' parabola_times)
    = Ok v
    /\ List.length v = 1%nat.
Proof.
  apply HermiteInterpolateAndSolve_dimension.
  - lia.
  - split; [vm_compute; discriminate | vm_compute; reflexivity].
  - split; [vm_compute; discriminate | vm_compute; reflexivity].
  - split; [vm_compute; discriminate | vm_compute; reflexivity].
  - repeat constructor.
  - repeat constructor.
  - exact parabola_times_distinct.
Defined.

(** X8 on the three samples of the parabola, evaluated at time 0.001. *)
Lemma HermiteInterpolateAndSolve_at_latest_time_witness :
  HermiteInterpolateAndSolve (rational 1 1000) 3
    ([rational 1 10; rational 1 100] ++ [rational 1 1000])
    (sampled parabola [rational 1 10; rational 1 100]
     ++ [[parabola (rational 1 1000)]])
    (sampled parabola' parabola_times)
  = Ok [parabola (rational 1 1000)].
Proof.
  apply (HermiteInterpolateAndSolve_at_latest_time 1).
  - lia.
  - split; [vm_compute; discriminate | vm_compute; reflexivity].
  - split; [vm_compute; discriminate | vm_compute; reflexivity].
  - split; [vm_compute; discriminate | vm_compute; reflexivity].
  - repeat constructor.
  - repeat constructor.
  - exact parabola_times_distinct.
Defined.

(** X9 on the parabola, with a window of three samples. *)
Lemma HermiteInterpolateAndSolve_quadratic_witness :
  HermiteInterpolateAndSolve (rational 0 1) 3 parabola_times
    (map (position parabola_path) parabola_times)
    (map (velocity parabola_path) parabola_times)
  = Ok (position parabola_path (rational 0 1)).
Proof.
  apply HermiteInterpolateAndSolve_quadratic.
  - lia.
  - split; [vm_compute; discriminate | vm_compute; reflexivity].
  - exact parabola_times_distinct.
Defined.
